(** * ChatBot: the matching-and-traversal engine of the memory-management chatbot

    A shallow embedding of [src/chatbot.cpp] and the properties of it that
    the specification states.

    - [ComputeLevenshteinDistance]: the rolling-row edit-distance routine,
      with its [size_t] and [int] arithmetic and its heap array written
      out; it is proved to stay inside the array and to return the least
      number of single-character edits between the upper-cased strings.
    - [ReceiveMessageFromUser]: scoring of the outgoing edges of the
      current node, [std::sort] on the collected pairs, choice of the next
      node, hand-over to the node.
    - [SetCurrentNode]: choice of an answer by a random draw and emission
      through the chat logic.
    - The move constructor and the move assignment operator of [ChatBot],
      member by member on a store of objects.
    - The two constructors, the destructor, the copy constructor and the
      copy assignment operator, on a memory that also holds the bitmaps
      and the nodes of the free store; the sequences of these operations
      that the lifetime rules of the language allow.

    The standard library enters by its contract ([std::sort],
    [std::uniform_int_distribution], [std::vector::at]); for [std::sort]
    the introsort of libstdc++ is modelled as well, with its heap sort.
    What the functions print on [std::cout] is left out.

    The first part of the file holds the definitions, the second the
    lemmas and theorems. *)

From Stdlib Require Import ZArith Ascii String List Lia Bool.
From Stdlib Require Import Sorting.Permutation Sorting.Sorted.
From stdpp Require Import base option list strings gmap.

Local Open Scope Z_scope.

(* ================================================================== *)
(** ** Machine integers *)

Module MachInt.

(** [size_t] on the LP64 targets the project builds for: 64 bits, unsigned. *)
Definition size_t_modulus : Z := 2 ^ 64.
Definition size_t_wrap (z : Z) : Z := z mod size_t_modulus.

(** [int]: 32 bits, two's complement. *)
Definition INT_MAX : Z := 2147483647.
Definition INT_MIN : Z := -2147483648.

(** Conversion of a [size_t] to [int], as in [return n;] and
    [int result = costs[n];]: reduction modulo 2^32 into the signed range. *)
Definition to_int (z : Z) : Z := (z + 2 ^ 31) mod 2 ^ 32 - 2 ^ 31.

Definition size_t_add (a b : Z) : Z := size_t_wrap (a + b).
Definition size_t_sub (a b : Z) : Z := size_t_wrap (a - b).

End MachInt.
Import MachInt.

(* ================================================================== *)
(** ** Strings *)

(** A [std::string] is its sequence of [char]s. *)
Abbreviation std_string := (list ascii).

(** String literals for examples. *)
Definition str (s : string) : std_string := list_ascii_of_string s.

(** [s.size()], a [size_t]. *)
Definition size {A} (s : list A) : Z := size_t_wrap (Z.of_nat (length s)).

(** [::toupper] in the "C" locale: the 26 lower-case letters are mapped
    to their upper-case counterparts, every other [char] is unchanged. *)
Definition toupper (c : ascii) : ascii :=
  let n := N_of_ascii c in
  if ((97 <=? n) && (n <=? 122))%N then ascii_of_N (n - 32) else c.

(** [std::transform(s.begin(), s.end(), s.begin(), ::toupper)]. *)
Definition transform_toupper (s : std_string) : std_string := map toupper s.

(* ================================================================== *)
(** ** ChatBot::ComputeLevenshteinDistance *)

(** The [costs] array lives on the heap. A cell holds a value once it has
    been written; [new size_t[n + 1]] leaves every cell indeterminate
    ([None]). An access outside of the array and the reading of an
    indeterminate cell are undefined behaviour, which the model reports
    as [None]. *)
Abbreviation array := (list (option Z)).

Definition new_array (len : Z) : array := replicate (Z.to_nat len) None.

Definition array_get (costs : array) (k : Z) : option Z :=
  mjoin (costs !! Z.to_nat k).

Definition array_set (costs : array) (k v : Z) : option array :=
  if decide (Z.to_nat k < length costs)%nat
  then Some (<[Z.to_nat k := Some v]> costs) else None.

(** [for (size_t k = 0; k <= n; k++) costs[k] = k;], unrolled [steps] times
    starting at [k]. *)
Fixpoint init_loop (steps : nat) (k : Z) (costs : array) : option array :=
  match steps with
  | O => Some costs
  | S steps' =>
      costs' ← array_set costs k k;
      init_loop steps' (size_t_add k 1) costs'
  end.

(** The inner loop over [s2]: [it2] is what remains to be visited, [j] the
    running index, [corner] the saved cell of the previous row. *)
Fixpoint inner_loop (c1 : ascii) (it2 : std_string) (j corner : Z)
    (costs : array) : option array :=
  match it2 with
  | [] => Some costs
  | c2 :: it2' =>
      upper ← array_get costs (size_t_add j 1);
      costs' ←
        (if Ascii.eqb c1 c2
         then array_set costs (size_t_add j 1) corner
         else
           cj ← array_get costs j;
           let t := if upper <? corner then upper else corner in
           array_set costs (size_t_add j 1)
                     (size_t_add (if cj <? t then cj else t) 1));
      inner_loop c1 it2' (size_t_add j 1) upper costs'
  end.

(** The outer loop over [s1]. *)
Fixpoint outer_loop (it1 : std_string) (s2 : std_string) (i : Z)
    (costs : array) : option array :=
  match it1 with
  | [] => Some costs
  | c1 :: it1' =>
      costs0 ← array_set costs 0 (size_t_add i 1);
      costs' ← inner_loop c1 s2 0 i costs0;
      outer_loop it1' s2 (size_t_add i 1) costs'
  end.

Definition ComputeLevenshteinDistance (s1 s2 : std_string) : option Z :=
  let s1 := transform_toupper s1 in
  let s2 := transform_toupper s2 in
  let m := size s1 in
  let n := size s2 in
  if m =? 0 then Some (to_int n)
  else if n =? 0 then Some (to_int m)
  else
    let costs := new_array (size_t_add n 1) in
    costs ← init_loop (Z.to_nat (size_t_add n 1)) 0 costs;
    costs ← outer_loop s1 s2 0 costs;
    result ← array_get costs n;
    Some (to_int result).

(* ================================================================== *)
(** ** Edit distance, as the specification words it *)

Section EditDistance.
Context {A : Type} `{EqDecision A}.

(** One single-character edit: an insertion, a deletion or a
    substitution, anywhere in the string. *)
Inductive edit1 : list A -> list A -> Prop :=
| edit1_ins p c q : edit1 (p ++ q) (p ++ c :: q)
| edit1_del p c q : edit1 (p ++ c :: q) (p ++ q)
| edit1_sub p c d q : edit1 (p ++ c :: q) (p ++ d :: q).

(** [edits n s t]: [n] single-character edits turn [s] into [t]. *)
Inductive edits : nat -> list A -> list A -> Prop :=
| edits_O s : edits O s s
| edits_S n s u t : edit1 s u -> edits n u t -> edits (S n) s t.

(** [n] is the least number of edits turning [s] into [t]. *)
Definition is_edit_distance (s t : list A) (n : nat) : Prop :=
  edits n s t /\ forall k, edits k s t -> (n <= k)%nat.

(** The textbook recurrence (Wagner and Fischer). *)
Fixpoint lev (s : list A) : list A -> nat :=
  match s with
  | [] => fun t => length t
  | c :: s' =>
      fix lev_s (t : list A) : nat :=
        match t with
        | [] => S (length s')
        | d :: t' =>
            Nat.min (Nat.min (S (lev s' t)) (S (lev_s t')))
                    (lev s' t' + (if decide (c = d) then 0 else 1))%nat
        end
  end.

End EditDistance.

(* ================================================================== *)
(** ** The conversation graph *)

(** A raw pointer: null, or the address of an object. *)
Inductive ptr : Type :=
| nullptr
| Addr (a : nat).

#[global] Instance ptr_eq_dec : EqDecision ptr.
Proof. solve_decision. Defined.

(** Modelled from the spec: [GraphEdge] (a Transition) is declared in
    graphedge.h, which is not among the sources; section 3 of the
    specification gives it an identifier, one destination Topic and a list
    of keywords, read through [GetChildNode] and [GetKeywords]. *)
Record GraphEdge : Type := mkGraphEdge {
  edge_id : nat;
  _childNode : ptr;
  _keywords : list std_string
}.

(** Modelled from the spec: [GraphNode] (a Topic) is declared in
    graphnode.h, which is not among the sources; section 3 of the
    specification gives it an identifier, an ordered list of outgoing
    Transitions, which it owns, and its response texts, read through
    [GetNumberOfChildEdges], [GetChildEdgeAtIndex] and [GetAnswers]. *)
Record GraphNode : Type := mkGraphNode {
  node_id : nat;
  _childEdges : list GraphEdge;
  _answers : list std_string
}.

Definition GetChildNode (e : GraphEdge) : ptr := _childNode e.
Definition GetKeywords (e : GraphEdge) : list std_string := _keywords e.
Definition GetAnswers (n : GraphNode) : list std_string := _answers n.
Definition GetNumberOfChildEdges (n : GraphNode) : Z := size (_childEdges n).
Definition GetChildEdgeAtIndex (n : GraphNode) (i : Z) : option GraphEdge :=
  _childEdges n !! Z.to_nat i.

(** The data members of [ChatBot]: four handles, none of them owned except
    the image. *)
Record ChatBot : Type := mkChatBot {
  _image : ptr;
  _currentNode : ptr;
  _rootNode : ptr;
  _chatLogic : ptr
}.

(* ================================================================== *)
(** ** State, exceptions and undefined behaviour *)

(** What a member function of the chatbot can see and change: the nodes of
    the graph by address, the chatbot itself, the texts handed to the chat
    logic so far, and the clock read by [std::time]. *)
Record World : Type := mkWorld {
  nodes : gmap nat GraphNode;
  chatbot : ChatBot;
  delivered : list std_string;
  clock : Z
}.

Inductive exn : Type :=
| out_of_range.

(** A call returns normally, leaves by an exception, or has undefined
    behaviour (a null or dangling pointer is dereferenced, memory is
    accessed out of bounds). *)
Inductive outcome (A : Type) : Type :=
| Done (a : A) (w : World)
| Throws (e : exn) (w : World)
| Undefined.
Arguments Done {A} a w.
Arguments Throws {A} e w.
Arguments Undefined {A}.

Definition M (A : Type) : Type := World -> outcome A.

#[global] Instance M_ret : MRet M := fun A a w => Done a w.
#[global] Instance M_bind : MBind M := fun A B f m w =>
  match m w with
  | Done a w' => f a w'
  | Throws e w' => Throws e w'
  | Undefined => Undefined
  end.

Definition get_chatbot : M ChatBot := fun w => Done (chatbot w) w.
Definition get_clock : M Z := fun w => Done (clock w) w.
Definition throw {A} (e : exn) : M A := fun w => Throws e w.
Definition undefined {A} : M A := fun _ => Undefined.

(** Lifting of a computation that has no state and can only go wrong. *)
Definition or_undefined {A} (o : option A) : M A :=
  match o with
  | Some a => mret a
  | None => undefined
  end.

(** [p->...] on a [GraphNode *]. *)
Definition deref_node (p : ptr) : M GraphNode := fun w =>
  match p with
  | nullptr => Undefined
  | Addr a =>
      match nodes w !! a with
      | Some n => Done n w
      | None => Undefined
      end
  end.

(** [_currentNode = node;] *)
Definition assign_currentNode (node : ptr) : M unit := fun w =>
  Done tt {| nodes := nodes w;
             chatbot := {| _image := _image (chatbot w);
                           _currentNode := node;
                           _rootNode := _rootNode (chatbot w);
                           _chatLogic := _chatLogic (chatbot w) |};
             delivered := delivered w;
             clock := clock w |}.

(** [std::vector::at]: the index is converted to [size_type] and checked. *)
Definition vector_at {A} (v : list A) (idx : Z) : M A :=
  let pos := size_t_wrap idx in
  if pos <? size v
  then or_undefined (v !! Z.to_nat pos)
  else throw out_of_range.

(** Modelled from the spec: [ChatLogic::SendMessageToUser] is defined in
    chatlogic.cpp, which is not among the sources; section 6 of the
    specification makes it the output sink, [deliver(text) -> void], which
    takes the text and returns. *)
Definition SendMessageToUser (chatLogic : ptr) (text : std_string) : M unit :=
  fun w =>
    match chatLogic with
    | nullptr => Undefined
    | Addr _ =>
        Done tt {| nodes := nodes w;
                   chatbot := chatbot w;
                   delivered := delivered w ++ [text];
                   clock := clock w |}
    end.

(* ================================================================== *)
(** ** The standard library, by its contract *)

(** A comparator fit for [std::sort]: a strict weak ordering. *)
Record strict_weak_order {A} (cmp : A -> A -> bool) : Prop := {
  swo_asym : forall x y, cmp x y = true -> cmp y x = false;
  swo_negtrans : forall x y z, cmp x y = false -> cmp y z = false -> cmp x z = false
}.

(** [x] and [y] are equivalent under [cmp]: neither is less than the other. *)
Definition equiv_under {A} (cmp : A -> A -> bool) (x y : A) : bool :=
  negb (cmp x y) && negb (cmp y x).

(** A sequence is sorted with respect to [cmp] when no element is less than
    one that comes before it. *)
Definition sorted_wrt {A} (cmp : A -> A -> bool) (l : list A) : Prop :=
  StronglySorted (fun x y => cmp y x = false) l.

Abbreviation sort_fun := (forall A : Type, (A -> A -> bool) -> list A -> list A).

(** What the standard promises of [std::sort]: the range is rearranged, and
    is sorted afterwards. The order of equivalent elements is left open. *)
Record std_sort_contract (sort : sort_fun) : Prop := {
  sort_perm : forall A (cmp : A -> A -> bool) l,
    strict_weak_order cmp -> Permutation (sort A cmp l) l;
  sort_sorted : forall A (cmp : A -> A -> bool) l,
    strict_weak_order cmp -> sorted_wrt cmp (sort A cmp l)
}.

(** What [std::stable_sort] promises in addition: equivalent elements keep
    their relative order. *)
Definition keeps_equivalent_order (sort : sort_fun) : Prop :=
  forall A (cmp : A -> A -> bool) l x,
    strict_weak_order cmp ->
    List.filter (equiv_under cmp x) (sort A cmp l) = List.filter (equiv_under cmp x) l.

(** Two sorting procedures that both meet the contract of [std::sort].
    Insertion sort keeps equivalent elements in their order. *)
Fixpoint insert_sorted {A} (cmp : A -> A -> bool) (x : A) (l : list A) : list A :=
  match l with
  | [] => [x]
  | y :: l' => if cmp y x then y :: insert_sorted cmp x l' else x :: y :: l'
  end.

Definition insertion_sort : sort_fun := fun A cmp l =>
  foldr (insert_sorted cmp) [] l.

(** Insertion sort fed from the back: equivalent elements come out in the
    opposite order. *)
Definition backward_insertion_sort : sort_fun := fun A cmp l =>
  insertion_sort A cmp (rev l).

(** *** std::sort as libstdc++ implements it

    The introsort of GCC 12 (bits/stl_algo.h, with the heap functions of
    bits/stl_heap.h that it falls back on when the recursion gets too
    deep), on a vector seen as a list and iterators seen as positions.
    Reading or writing outside the vector gives [None]. *)
Module Libstdcxx.
Section Sort.
Context {A : Type} (__comp : A -> A -> bool).

Definition _S_threshold : nat := 16.

Definition iter_swap (a b : nat) (v : list A) : option (list A) :=
  x ← v !! a; y ← v !! b; Some (<[b := x]> (<[a := y]> v)).

Definition __move_median_to_first (__result __a __b __c : nat) (v : list A)
  : option (list A) :=
  a ← v !! __a; b ← v !! __b; c ← v !! __c;
  if __comp a b then
    if __comp b c then iter_swap __result __b v
    else if __comp a c then iter_swap __result __c v
    else iter_swap __result __a v
  else if __comp a c then iter_swap __result __a v
  else if __comp b c then iter_swap __result __c v
  else iter_swap __result __b v.

(** [while (__comp(__first, __pivot)) ++__first;] *)
Fixpoint advance_first (fuel __first __pivot : nat) (v : list A) : option nat :=
  match fuel with
  | O => None
  | S fuel' =>
      x ← v !! __first; p ← v !! __pivot;
      if __comp x p then advance_first fuel' (S __first) __pivot v
      else Some __first
  end.

(** [while (__comp(__pivot, __last)) --__last;] *)
Fixpoint retreat_last (fuel __last __pivot : nat) (v : list A) : option nat :=
  match fuel with
  | O => None
  | S fuel' =>
      x ← v !! __last; p ← v !! __pivot;
      if __comp p x
      then match __last with
           | O => None
           | S __last' => retreat_last fuel' __last' __pivot v
           end
      else Some __last
  end.

Fixpoint __unguarded_partition (fuel __first __last __pivot : nat) (v : list A)
  : option (nat * list A) :=
  match fuel with
  | O => None
  | S fuel' =>
      __first ← advance_first (S (length v)) __first __pivot v;
      match __last with
      | O => None
      | S __last =>
          __last ← retreat_last (S (length v)) __last __pivot v;
          if negb (__first <? __last)%nat then Some (__first, v)
          else
            v ← iter_swap __first __last v;
            __unguarded_partition fuel' (S __first) __last __pivot v
      end
  end.

(** [*(__first + i) = x;] *)
Definition assign_at (i : nat) (x : A) (v : list A) : option (list A) :=
  _ ← v !! i; Some (<[i := x]> v).

(** [__push_heap]: the hole goes up as long as its parent is less than
    [__value]. *)
Fixpoint __push_heap (fuel __first __holeIndex __topIndex : nat) (__value : A)
    (v : list A) : option (list A) :=
  match fuel with
  | O => None
  | S fuel' =>
      let __parent := ((__holeIndex - 1) / 2)%nat in
      if (__topIndex <? __holeIndex)%nat then
        p ← v !! (__first + __parent)%nat;
        if __comp p __value then
          v ← assign_at (__first + __holeIndex) p v;
          __push_heap fuel' __first __parent __topIndex __value v
        else assign_at (__first + __holeIndex) __value v
      else assign_at (__first + __holeIndex) __value v
  end.

(** The first loop of [__adjust_heap]: the hole goes down to the greater
    child; the result is [(__holeIndex, __secondChild)] and the vector. *)
Fixpoint adjust_heap_loop (fuel __first __holeIndex __secondChild __len : nat)
    (v : list A) : option (nat * nat * list A) :=
  match fuel with
  | O => None
  | S fuel' =>
      if (__secondChild <? (__len - 1) / 2)%nat then
        let __secondChild := (2 * (__secondChild + 1))%nat in
        x ← v !! (__first + __secondChild)%nat;
        y ← v !! (__first + (__secondChild - 1))%nat;
        let __secondChild :=
          if __comp x y then (__secondChild - 1)%nat else __secondChild in
        z ← v !! (__first + __secondChild)%nat;
        v ← assign_at (__first + __holeIndex) z v;
        adjust_heap_loop fuel' __first __secondChild __secondChild __len v
      else Some (__holeIndex, __secondChild, v)
  end.

(** [__len] is a signed distance in the source: [(__len - 2) / 2] is -1
    for no element, which no index equals, hence the test [2 <=? __len]. *)
Definition __adjust_heap (__first __holeIndex __len : nat) (__value : A)
    (v : list A) : option (list A) :=
  let __topIndex := __holeIndex in
  r ← adjust_heap_loop (S (length v)) __first __holeIndex __holeIndex __len v;
  let '(__holeIndex, __secondChild, v) := r in
  if Nat.even __len && (2 <=? __len)%nat
     && (__secondChild =? (__len - 2) / 2)%nat
  then
    let __secondChild := (2 * (__secondChild + 1))%nat in
    z ← v !! (__first + (__secondChild - 1))%nat;
    v ← assign_at (__first + __holeIndex) z v;
    __push_heap (S (length v)) __first (__secondChild - 1) __topIndex __value v
  else __push_heap (S (length v)) __first __holeIndex __topIndex __value v.

Definition __pop_heap (__first __last __result : nat) (v : list A)
  : option (list A) :=
  __value ← v !! __result;
  f ← v !! __first;
  v ← assign_at __result f v;
  __adjust_heap __first 0 (__last - __first) __value v.

(** The loop of [__make_heap], from [__parent] down to 0. *)
Fixpoint make_heap_loop (__first __len __parent : nat) (v : list A)
  : option (list A) :=
  __value ← v !! (__first + __parent)%nat;
  v ← __adjust_heap __first __parent __len __value v;
  match __parent with
  | O => Some v
  | S __parent => make_heap_loop __first __len __parent v
  end.

Definition __make_heap (__first __last : nat) (v : list A) : option (list A) :=
  if (__last - __first <? 2)%nat then Some v
  else
    let __len := (__last - __first)%nat in
    make_heap_loop __first __len ((__len - 2) / 2) v.

(** [while (__last - __first > 1) { --__last; __pop_heap(...); }] *)
Fixpoint sort_heap_loop (steps __first __last : nat) (v : list A)
  : option (list A) :=
  match steps with
  | O => Some v
  | S steps' =>
      let __last := (__last - 1)%nat in
      v ← __pop_heap __first __last __last v;
      sort_heap_loop steps' __first __last v
  end.

Definition __sort_heap (__first __last : nat) (v : list A) : option (list A) :=
  sort_heap_loop (__last - __first - 1) __first __last v.

(** [for (__i = __middle; __i < __last; ++__i)] of [__heap_select]. *)
Fixpoint heap_select_loop (steps __first __middle __i : nat) (v : list A)
  : option (list A) :=
  match steps with
  | O => Some v
  | S steps' =>
      x ← v !! __i; f ← v !! __first;
      v ← (if __comp x f then __pop_heap __first __middle __i v else Some v);
      heap_select_loop steps' __first __middle (S __i) v
  end.

Definition __heap_select (__first __middle __last : nat) (v : list A)
  : option (list A) :=
  v ← __make_heap __first __middle v;
  heap_select_loop (__last - __middle) __first __middle __middle v.

Definition __partial_sort (__first __middle __last : nat) (v : list A)
  : option (list A) :=
  v ← __heap_select __first __middle __last v;
  __sort_heap __first __middle v.

Definition __unguarded_partition_pivot (__first __last : nat) (v : list A)
  : option (nat * list A) :=
  let __mid := (__first + (__last - __first) / 2)%nat in
  v ← __move_median_to_first __first (__first + 1) __mid (__last - 1) v;
  __unguarded_partition (S (length v)) (__first + 1) __last __first v.

Fixpoint __introsort_loop (fuel __first __last __depth_limit : nat) (v : list A)
  : option (list A) :=
  match fuel with
  | O => None
  | S fuel' =>
      if (_S_threshold <? __last - __first)%nat then
        match __depth_limit with
        | O => __partial_sort __first __last __last v
        | S __depth_limit =>
            r ← __unguarded_partition_pivot __first __last v;
            v ← __introsort_loop fuel' r.1 __last __depth_limit r.2;
            __introsort_loop fuel' __first r.1 __depth_limit v
        end
      else Some v
  end.

(** The loop of [__unguarded_linear_insert]: [__val] goes down from
    position [__last] as long as it is less than what is below. *)
Fixpoint linear_insert_loop (fuel : nat) (__val : A) (__last : nat) (v : list A)
  : option (list A) :=
  match fuel with
  | O => None
  | S fuel' =>
      match __last with
      | O => None
      | S __next =>
          x ← v !! __next;
          if __comp __val x
          then linear_insert_loop fuel' __val __next (<[__last := x]> v)
          else Some (<[__last := __val]> v)
      end
  end.

Definition __unguarded_linear_insert (__last : nat) (v : list A) : option (list A) :=
  __val ← v !! __last;
  linear_insert_loop (S (length v)) __val __last v.

(** [__val = *__i; move_backward(__first, __i, __i + 1); *__first = __val;] *)
Definition rotate_to_first (__first __i : nat) (v : list A) : option (list A) :=
  __val ← v !! __i;
  Some (take __first v ++ __val :: take (__i - __first) (drop __first v)
          ++ drop (S __i) v).

Fixpoint insertion_sort_loop (steps __first __i : nat) (v : list A)
  : option (list A) :=
  match steps with
  | O => Some v
  | S steps' =>
      x ← v !! __i; f ← v !! __first;
      v' ← (if __comp x f then rotate_to_first __first __i v
            else __unguarded_linear_insert __i v);
      insertion_sort_loop steps' __first (S __i) v'
  end.

Definition __insertion_sort (__first __last : nat) (v : list A) : option (list A) :=
  if (__first =? __last)%nat then Some v
  else insertion_sort_loop (__last - (__first + 1)) __first (__first + 1) v.

Fixpoint unguarded_insertion_sort_loop (steps __i : nat) (v : list A)
  : option (list A) :=
  match steps with
  | O => Some v
  | S steps' =>
      v' ← __unguarded_linear_insert __i v;
      unguarded_insertion_sort_loop steps' (S __i) v'
  end.

Definition __unguarded_insertion_sort (__first __last : nat) (v : list A)
  : option (list A) :=
  unguarded_insertion_sort_loop (__last - __first) __first v.

Definition __final_insertion_sort (__first __last : nat) (v : list A)
  : option (list A) :=
  if (_S_threshold <? __last - __first)%nat then
    v ← __insertion_sort __first (__first + _S_threshold) v;
    __unguarded_insertion_sort (__first + _S_threshold) __last v
  else __insertion_sort __first __last v.

(** [std::__sort(v.begin(), v.end(), __comp)] *)
Definition __sort (v : list A) : option (list A) :=
  let __last := length v in
  if (__last =? 0)%nat then Some v
  else
    v ← __introsort_loop (S __last) 0 __last (Nat.log2 __last * 2) v;
    __final_insertion_sort 0 __last v.

End Sort.
End Libstdcxx.

(** [std::sort] of libstdc++ as a function on lists. The model gives
    [None] only where the algorithm would leave the vector, which a
    comparator that is not a strict weak ordering can cause: the list is
    then returned as it is. *)
Definition libstdcxx_sort : sort_fun := fun A cmp l =>
  default l (Libstdcxx.__sort cmp l).

(** [std::mt19937 generator(seed); std::uniform_int_distribution<int>
    dis(a, b); dis(generator)]: the standard requires [a <= b] and then
    promises a value between the two. *)
Abbreviation draw_fun := (Z -> Z -> Z -> Z).

Definition uniform_int_contract (draw : draw_fun) : Prop :=
  forall seed a b, a <= b -> a <= draw seed a b <= b.

(** A distribution built with [b < a] is outside the contract of the
    library: the behaviour is undefined. *)
Definition uniform_int_distribution (draw : draw_fun) (seed a b : Z) : M Z :=
  if a <=? b then mret (draw seed a b) else undefined.

(** A draw that meets the contract, for running the model. *)
Definition modular_draw : draw_fun := fun seed a b =>
  if a <=? b then a + seed mod (b - a + 1) else seed.

(* ================================================================== *)
(** ** ChatBot::SetCurrentNode and ChatBot::ReceiveMessageFromUser *)

Definition EdgeDist : Type := GraphEdge * Z.

(** The lambda handed to [std::sort]. *)
Definition EdgeDist_less (a b : EdgeDist) : bool := a.2 <? b.2.

(** [for (auto keyword : edge->GetKeywords())]: one pair is pushed per
    keyword. *)
Fixpoint keyword_loop (edge : GraphEdge) (keywords : list std_string)
    (message : std_string) (levDists : list EdgeDist) : option (list EdgeDist) :=
  match keywords with
  | [] => Some levDists
  | keyword :: keywords' =>
      d ← ComputeLevenshteinDistance keyword message;
      let ed : EdgeDist := (edge, d) in
      keyword_loop edge keywords' message (levDists ++ [ed])
  end.

(** [for (size_t i = 0; i < _currentNode->GetNumberOfChildEdges(); ++i)],
    with [steps] iterations left. *)
Fixpoint edge_loop (steps : nat) (i : Z) (node : GraphNode)
    (message : std_string) (levDists : list EdgeDist) : option (list EdgeDist) :=
  match steps with
  | O => Some levDists
  | S steps' =>
      edge ← GetChildEdgeAtIndex node i;
      levDists' ← keyword_loop edge (GetKeywords edge) message levDists;
      edge_loop steps' (size_t_add i 1) node message levDists'
  end.

Definition collect_levDists (node : GraphNode) (message : std_string)
  : option (list EdgeDist) :=
  edge_loop (Z.to_nat (GetNumberOfChildEdges node)) 0 node message [].

Section ChatBot.
Variable std_sort : sort_fun.
Variable dis : draw_fun.

Definition SetCurrentNode (node : ptr) : M unit :=
  (* update pointer to current node *)
  _ ← assign_currentNode node;
  (* select a random node answer *)
  bot ← get_chatbot;
  current ← deref_node (_currentNode bot);
  let answers := GetAnswers current in
  seed ← get_clock;
  idx ← uniform_int_distribution dis (to_int seed)
          0 (to_int (size_t_sub (size answers) 1));
  answer ← vector_at answers idx;
  (* send selected node answer to user *)
  SendMessageToUser (_chatLogic bot) answer.

(** Modelled from the spec: [GraphNode::MoveChatbotToNewNode] is defined in
    graphnode.cpp, which is not among the sources; steps 4 and 5 of section
    4.3 of the specification say what it does: the current Topic of the engine
    becomes the next Topic and the response of that Topic is emitted, which
    is [SetCurrentNode] on the chatbot. *)
Definition MoveChatbotToNewNode (newNode : ptr) : M unit :=
  SetCurrentNode newNode.

(** Lines 147 to 173: the node handed to [MoveChatbotToNewNode]. *)
Definition select_newNode (message : std_string) : M ptr :=
  bot ← get_chatbot;
  current ← deref_node (_currentNode bot);
  levDists ← or_undefined (collect_levDists current message);
  if 0 <? size levDists
  then
    let levDists := std_sort EdgeDist EdgeDist_less levDists in
    best ← vector_at levDists 0;
    mret (GetChildNode best.1)
  else
    (* go back to root node *)
    mret (_rootNode bot).

Definition ReceiveMessageFromUser (message : std_string) : M unit :=
  newNode ← select_newNode message;
  (* tell current node to move chatbot to new node *)
  MoveChatbotToNewNode newNode.

End ChatBot.

(* ================================================================== *)
(** ** Move constructor and move assignment operator *)

(** The [ChatBot] objects in memory, by address. *)
Abbreviation objects := (gmap nat ChatBot).

Definition with_image (v : ptr) (b : ChatBot) : ChatBot :=
  {| _image := v; _currentNode := _currentNode b;
     _rootNode := _rootNode b; _chatLogic := _chatLogic b |}.
Definition with_currentNode (v : ptr) (b : ChatBot) : ChatBot :=
  {| _image := _image b; _currentNode := v;
     _rootNode := _rootNode b; _chatLogic := _chatLogic b |}.
Definition with_rootNode (v : ptr) (b : ChatBot) : ChatBot :=
  {| _image := _image b; _currentNode := _currentNode b;
     _rootNode := v; _chatLogic := _chatLogic b |}.
Definition with_chatLogic (v : ptr) (b : ChatBot) : ChatBot :=
  {| _image := _image b; _currentNode := _currentNode b;
     _rootNode := _rootNode b; _chatLogic := v |}.

(** [obj._field = v;] on the object at address [a]. *)
Definition write_member (upd : ChatBot -> ChatBot) (a : nat) (mem : objects)
  : option objects :=
  b ← mem !! a; Some (<[a := upd b]> mem).

(** [this->_field = source._field;] *)
Definition copy_member (get : ChatBot -> ptr) (set : ptr -> ChatBot -> ChatBot)
    (this source : nat) (mem : objects) : option objects :=
  s ← mem !! source; write_member (set (get s)) this mem.

(** The statements shared by the move constructor and the move assignment
    operator, in the order of the source. *)
Definition move_handles (this source : nat) (mem : objects) : option objects :=
  (* copy the data handle from source to target *)
  mem ← copy_member _image with_image this source mem;
  mem ← copy_member _currentNode with_currentNode this source mem;
  mem ← copy_member _rootNode with_rootNode this source mem;
  mem ← copy_member _chatLogic with_chatLogic this source mem;
  (* invalidate source data handle *)
  mem ← write_member (with_image nullptr) source mem;
  mem ← write_member (with_currentNode nullptr) source mem;
  mem ← write_member (with_rootNode nullptr) source mem;
  write_member (with_chatLogic nullptr) source mem.

(** [ChatBot::ChatBot(ChatBot &&source)], building the object at [this]. *)
Definition ChatBot_move_constructor (this source : nat) (mem : objects)
  : option objects :=
  move_handles this source mem.

(** [ChatBot::operator=(ChatBot &&source)]. *)
Definition ChatBot_move_assignment (this source : nat) (mem : objects)
  : option objects :=
  if decide (this = source) then Some mem
  else move_handles this source mem.

(* ================================================================== *)
(** ** Vocabulary of the statements *)

(** The sizes a container can have: [size()] and [size() + 1] are
    [size_t] values. *)
Definition fits_size_t {A} (l : list A) : Prop :=
  Z.of_nat (length l) < size_t_modulus - 1.

(** The sizes whose conversion to [int] keeps the value. *)
Definition fits_int {A} (l : list A) : Prop :=
  Z.of_nat (length l) <= INT_MAX.

(** A node as a C++ program can hold it. *)
Definition representable_node (n : GraphNode) : Prop :=
  fits_size_t (_childEdges n) /\
  Forall (fun e => Forall fits_size_t (_keywords e)) (_childEdges n) /\
  fits_size_t (concat (map _keywords (_childEdges n))).

(** The pairs one edge contributes: one per keyword, in order. *)
Definition edge_pairs (message : std_string) (edge : GraphEdge)
  : option (list EdgeDist) :=
  ds ← mapM (fun keyword => ComputeLevenshteinDistance keyword message)
            (GetKeywords edge);
  Some (map (pair edge) ds).

(** [block] is what scoring pushes for [edge]: one pair per keyword, in
    order, made of the edge and of the distance between that keyword and
    the message. *)
Definition block_of (message : std_string) (edge : GraphEdge)
    (block : list EdgeDist) : Prop :=
  length block = length (GetKeywords edge) /\
  Forall2 (fun keyword p =>
             p.1 = edge /\
             ComputeLevenshteinDistance keyword message = Some p.2)
          (GetKeywords edge) block.

(** What a caller observes of a call, the final state apart. *)
Definition result_of {A} (o : outcome A) : option (A + exn) :=
  match o with
  | Done a _ => Some (inl a)
  | Throws e _ => Some (inr e)
  | Undefined => None
  end.

(** [p] points to a node of the graph. *)
Definition valid_node_ptr (w : World) (p : ptr) : Prop :=
  exists a, p = Addr a /\ is_Some (nodes w !! a).

(** What the chatbot expects of its surroundings: the chat logic is set,
    the current node and the root node exist, every node has answers, no
    more than the distribution can number, and edges that lead to nodes. *)
Definition well_formed (w : World) : Prop :=
  (exists c, _chatLogic (chatbot w) = Addr c) /\
  valid_node_ptr w (_currentNode (chatbot w)) /\
  valid_node_ptr w (_rootNode (chatbot w)) /\
  forall a n, nodes w !! a = Some n ->
    representable_node n /\
    _answers n <> [] /\
    Z.of_nat (length (_answers n)) <= INT_MAX + 1 /\
    Forall (fun e => valid_node_ptr w (_childNode e)) (_childEdges n).

(** The state a call leaves behind, when it leaves one. *)
Definition final_state {A} (o : outcome A) : option World :=
  match o with
  | Done _ w => Some w
  | Throws _ w => Some w
  | Undefined => None
  end.

(** Everything but the current node and the delivered texts is the same
    in [w] and [w']. *)
Definition same_frame (w w' : World) : Prop :=
  nodes w' = nodes w /\
  _rootNode (chatbot w') = _rootNode (chatbot w) /\
  _image (chatbot w') = _image (chatbot w) /\
  _chatLogic (chatbot w') = _chatLogic (chatbot w).

(** A computation that keeps the frame however it ends. *)
Definition keeps_frame {A} (m : M A) : Prop :=
  forall w w', final_state (m w) = Some w' -> same_frame w w'.

(** The pairs of least distance, in the order of enumeration. *)
Definition least_distance (levDists : list EdgeDist) (d : Z) : Prop :=
  (exists e, (e, d) ∈ levDists) /\ forall p, p ∈ levDists -> d <= p.2.

Definition tied_at (d : Z) (levDists : list EdgeDist) : list EdgeDist :=
  List.filter (fun p => p.2 =? d) levDists.

Definition null_ChatBot : ChatBot :=
  {| _image := nullptr; _currentNode := nullptr;
     _rootNode := nullptr; _chatLogic := nullptr |}.

(* ================================================================== *)
(** ** Invariants of the loops of ComputeLevenshteinDistance *)

(** The cell in row [i] and column [j] of the full table: the distance
    between the first [i] characters of [s1] and the first [j] of [s2]. *)
Definition cell (s1 s2 : std_string) (i j : nat) : Z :=
  Z.of_nat (lev (rev (take i s1)) (rev (take j s2))).

(** Between two passes of the outer loop [costs] holds row [i]. *)
Definition full_row (s1 s2 : std_string) (i : nat) (costs : array) : Prop :=
  length costs = S (length s2) /\
  forall k, (k <= length s2)%nat -> costs !! k = Some (Some (cell s1 s2 i k)).

(** Inside the inner loop [costs] holds row [i + 1] up to column [j] and
    row [i] after it. *)
Definition partial_row (s1 s2 : std_string) (i j : nat) (costs : array) : Prop :=
  length costs = S (length s2) /\
  (forall k, (k <= j)%nat -> costs !! k = Some (Some (cell s1 s2 (S i) k))) /\
  (forall k, (j < k <= length s2)%nat ->
     costs !! k = Some (Some (cell s1 s2 i k))).

(* ================================================================== *)
(** ** Concrete inputs *)

Definition demo_bot : ChatBot :=
  {| _image := Addr 500; _currentNode := Addr 1;
     _rootNode := Addr 0; _chatLogic := Addr 900 |}.

Definition demo_objects : objects :=
  <[7%nat := demo_bot]> (<[3%nat := null_ChatBot]> ∅).


(** The graph of the end-to-end scenario of the specification, with two
    more nodes: one without any answer, one whose two edges carry
    keywords at the same distance of the message "x". *)
Definition edge_weather : GraphEdge :=
  {| edge_id := 0; _childNode := Addr 1; _keywords := [str "weather"] |}.
Definition edge_joke : GraphEdge :=
  {| edge_id := 1; _childNode := Addr 2; _keywords := [str "joke"; str "funny"] |}.
Definition edge_a : GraphEdge :=
  {| edge_id := 2; _childNode := Addr 1; _keywords := [str "a"] |}.
Definition edge_b : GraphEdge :=
  {| edge_id := 3; _childNode := Addr 2; _keywords := [str "b"] |}.

Definition node_root : GraphNode :=
  {| node_id := 0; _childEdges := [edge_weather; edge_joke];
     _answers := [str "Hi"] |}.
Definition node_weather : GraphNode :=
  {| node_id := 1; _childEdges := [];
     _answers := [str "Sunny"; str "Rainy"] |}.
Definition node_joke : GraphNode :=
  {| node_id := 2; _childEdges := []; _answers := [str "Knock knock"] |}.
Definition node_mute : GraphNode :=
  {| node_id := 3; _childEdges := []; _answers := [] |}.
Definition node_tie : GraphNode :=
  {| node_id := 4; _childEdges := [edge_a; edge_b]; _answers := [str "Which?"] |}.

Definition demo_nodes : gmap nat GraphNode :=
  <[0%nat := node_root]> (<[1%nat := node_weather]> (<[2%nat := node_joke]>
  (<[3%nat := node_mute]> (<[4%nat := node_tie]> ∅)))).

Definition demo_world_at (current : ptr) : World :=
  {| nodes := demo_nodes;
     chatbot := {| _image := Addr 500; _currentNode := current;
                   _rootNode := Addr 0; _chatLogic := Addr 900 |};
     delivered := [];
     clock := 1700000001 |}.

(** A node with more answers than an [int] can count. *)
Definition crowded_node : GraphNode :=
  {| node_id := 5; _childEdges := [];
     _answers := replicate (Z.to_nat 2147483649) (str "Hi") |}.

Definition crowded_world : World :=
  {| nodes := {[ 5%nat := crowded_node ]};
     chatbot := {| _image := Addr 500; _currentNode := Addr 5;
                   _rootNode := Addr 5; _chatLogic := Addr 900 |};
     delivered := [];
     clock := 1700000001 |}.

(** The texts handed to the chat logic when a call is over. *)
Definition delivered_after {A} (o : outcome A) : option (list std_string) :=
  match o with
  | Done _ w => Some (delivered w)
  | Throws _ w => Some (delivered w)
  | Undefined => None
  end.

(** The state after the message "whether" was received at the root. *)
Definition demo_world_after : World :=
  {| nodes := demo_nodes;
     chatbot := {| _image := Addr 500; _currentNode := Addr 1;
                   _rootNode := Addr 0; _chatLogic := Addr 900 |};
     delivered := [str "Rainy"];
     clock := 1700000001 |}.

(** A state that shares the graph, the current node and the root node
    with [demo_world_at (Addr 0)] and nothing else. *)
Definition demo_world_elsewhere : World :=
  {| nodes := demo_nodes;
     chatbot := {| _image := nullptr; _currentNode := Addr 0;
                   _rootNode := Addr 0; _chatLogic := Addr 7 |};
     delivered := [str "Hi"; str "Sunny"];
     clock := 42 |}.

(** A node with seventeen outgoing edges, one keyword each, the letters
    "a" to "q": all at distance 1 of the message "z". Edge number [i]
    leads to the node at address [100 + i]. *)
Definition crossroads_edge (i : nat) (letter : ascii) : GraphEdge :=
  {| edge_id := i; _childNode := Addr (100 + i); _keywords := [[letter]] |}.

Definition crossroads_node : GraphNode :=
  {| node_id := 6;
     _childEdges := imap crossroads_edge (str "abcdefghijklmnopq");
     _answers := [str "Where to?"] |}.

Definition crossroads_world : World :=
  {| nodes := {[ 6%nat := crossroads_node ]};
     chatbot := {| _image := Addr 500; _currentNode := Addr 6;
                   _rootNode := Addr 6; _chatLogic := Addr 900 |};
     delivered := [];
     clock := 1700000001 |}.

(* ================================================================== *)
(** ** Constructors, destructor and copy operations *)

(** A [wxBitmap] is an object of wxWidgets, outside the repository; the
    chatbot loads one from a file, copies one and deletes one. What a
    bitmap holds is what was read from its file. *)
Inductive wxBitmap : Type :=
| wxBitmap_from_file (filename : std_string).

(** The memory the special member functions work on: the [ChatBot]
    objects, storage under construction included, and the [wxBitmap] and
    [GraphNode] objects of the free store, each by address. *)
Record Memory : Type := mkMemory {
  bots : objects;
  bitmaps : gmap nat wxBitmap;
  heap_nodes : gmap nat GraphNode
}.

Definition GetID (n : GraphNode) : nat := node_id n.

(** [obj._field = v;] on the chatbot at address [this]. *)
Definition assign_member (upd : ChatBot -> ChatBot) (this : nat) (m : Memory)
  : option Memory :=
  bs ← write_member upd this (bots m);
  Some {| bots := bs; bitmaps := bitmaps m; heap_nodes := heap_nodes m |}.

(** [new wxBitmap(...)]: the object is placed at an address that is not in
    use. *)
Definition new_wxBitmap (b : wxBitmap) (m : Memory) : ptr * Memory :=
  let a := fresh (dom (bitmaps m)) in
  (Addr a, {| bots := bots m; bitmaps := <[a := b]> (bitmaps m);
              heap_nodes := heap_nodes m |}).

(** [delete p;] on a [wxBitmap *]: nothing for a null pointer, undefined
    behaviour for a pointer to no object. *)
Definition delete_wxBitmap (p : ptr) (m : Memory) : option Memory :=
  match p with
  | nullptr => Some m
  | Addr a =>
      _ ← bitmaps m !! a;
      Some {| bots := bots m; bitmaps := delete a (bitmaps m);
              heap_nodes := heap_nodes m |}
  end.

(** [*p] on a [wxBitmap *] and [p->...] on a [GraphNode *]. *)
Definition deref_wxBitmap (p : ptr) (m : Memory) : option wxBitmap :=
  match p with
  | nullptr => None
  | Addr a => bitmaps m !! a
  end.

Definition deref_GraphNode (p : ptr) (m : Memory) : option GraphNode :=
  match p with
  | nullptr => None
  | Addr a => heap_nodes m !! a
  end.

Definition new_GraphNode (n : GraphNode) (m : Memory) : ptr * Memory :=
  let a := fresh (dom (heap_nodes m)) in
  (Addr a, {| bots := bots m; bitmaps := bitmaps m;
              heap_nodes := <[a := n]> (heap_nodes m) |}).

(** [ChatBot::ChatBot()]: three handles are invalidated; nothing is
    assigned to [_currentNode]. *)
Definition ChatBot_default_constructor (this : nat) (m : Memory) : option Memory :=
  m ← assign_member (with_image nullptr) this m;
  m ← assign_member (with_chatLogic nullptr) this m;
  assign_member (with_rootNode nullptr) this m.

(** [ChatBot::ChatBot(std::string filename)]. *)
Definition ChatBot_file_constructor (this : nat) (filename : std_string)
    (m : Memory) : option Memory :=
  (* invalidate data handles *)
  m ← assign_member (with_chatLogic nullptr) this m;
  m ← assign_member (with_rootNode nullptr) this m;
  (* load image into heap memory *)
  let '(p, m) := new_wxBitmap (wxBitmap_from_file filename) m in
  assign_member (with_image p) this m.

(** [ChatBot::~ChatBot()]. *)
Definition ChatBot_destructor (this : nat) (m : Memory) : option Memory :=
  b ← bots m !! this;
  if decide (_image b = nullptr) then Some m
  else
    m ← delete_wxBitmap (_image b) m;
    assign_member (with_image nullptr) this m.

Section Copy.
(** [GraphNode::GraphNode(int id)] is defined in graphnode.cpp, which is
    not among the sources: what it builds from an identifier is left
    open. *)
Variable GraphNode_of_id : nat -> GraphNode.

(** The statements shared by the copy constructor and the copy assignment
    operator. *)
Definition copy_handles (this source : nat) (m : Memory) : option Memory :=
  (* this->_image = new wxBitmap( *source._image ); *)
  s ← bots m !! source;
  image ← deref_wxBitmap (_image s) m;
  let '(p, m) := new_wxBitmap image m in
  m ← assign_member (with_image p) this m;
  (* this->_currentNode = new GraphNode(source._currentNode->GetID()); *)
  s ← bots m !! source;
  current ← deref_GraphNode (_currentNode s) m;
  let '(p, m) := new_GraphNode (GraphNode_of_id (GetID current)) m in
  m ← assign_member (with_currentNode p) this m;
  (* this->_rootNode = new GraphNode(source._rootNode->GetID()); *)
  s ← bots m !! source;
  root ← deref_GraphNode (_rootNode s) m;
  let '(p, m) := new_GraphNode (GraphNode_of_id (GetID root)) m in
  m ← assign_member (with_rootNode p) this m;
  (* this->_chatLogic = source._chatLogic; *)
  s ← bots m !! source;
  assign_member (with_chatLogic (_chatLogic s)) this m.

(** [ChatBot::ChatBot(const ChatBot &source)]. *)
Definition ChatBot_copy_constructor (this source : nat) (m : Memory)
  : option Memory :=
  copy_handles this source m.

(** [ChatBot::operator=(const ChatBot &source)]. *)
Definition ChatBot_copy_assignment (this source : nat) (m : Memory)
  : option Memory :=
  if decide (this = source) then Some m
  else copy_handles this source m.

(** The move operations, which touch the chatbots only. *)
Definition move_constructor_in (this source : nat) (m : Memory) : option Memory :=
  bs ← ChatBot_move_constructor this source (bots m);
  Some {| bots := bs; bitmaps := bitmaps m; heap_nodes := heap_nodes m |}.

Definition move_assignment_in (this source : nat) (m : Memory) : option Memory :=
  bs ← ChatBot_move_assignment this source (bots m);
  Some {| bots := bs; bitmaps := bitmaps m; heap_nodes := heap_nodes m |}.

(** What can happen to the chatbots of a program: the special member
    functions, and an assignment to the three handles that are not owned.
    [SetCurrentNode] assigns [_currentNode]; nothing in chatbot.cpp
    assigns [_rootNode] or [_chatLogic] after construction, so for these
    two the operation stands for whatever the rest of the program does. *)
Inductive operation : Type :=
| default_construct (this : nat)
| file_construct (this : nat) (filename : std_string)
| destroy (this : nat)
| copy_construct (this source : nat)
| copy_assign (this source : nat)
| move_construct (this source : nat)
| move_assign (this source : nat)
| set_handles (this : nat) (current root logic : ptr).

(** [_currentNode = current; _rootNode = root; _chatLogic = logic;] *)
Definition assign_handles (this : nat) (current root logic : ptr) (m : Memory)
  : option Memory :=
  m ← assign_member (with_currentNode current) this m;
  m ← assign_member (with_rootNode root) this m;
  assign_member (with_chatLogic logic) this m.

Definition is_copy (op : operation) : bool :=
  match op with
  | copy_construct _ _ | copy_assign _ _ => true
  | _ => false
  end.

Definition run_operation (op : operation) (m : Memory) : option Memory :=
  match op with
  | set_handles this current root logic => assign_handles this current root logic m
  | default_construct this => ChatBot_default_constructor this m
  | file_construct this filename => ChatBot_file_constructor this filename m
  | destroy this => ChatBot_destructor this m
  | copy_construct this source => ChatBot_copy_constructor this source m
  | copy_assign this source => ChatBot_copy_assignment this source m
  | move_construct this source => move_constructor_in this source m
  | move_assign this source => move_assignment_in this source m
  end.

End Copy.

(** The rules of the language on the lifetime of objects: [live] holds
    the chatbots that have been constructed and not destroyed. A
    constructor runs on storage that holds no live object, everything else
    on live objects. *)
Definition lifetime_allows (live : gset nat) (op : operation) : Prop :=
  match op with
  | default_construct this | file_construct this _ => this ∉ live
  | destroy this | set_handles this _ _ _ => this ∈ live
  | copy_construct this source | move_construct this source =>
      (this ∉ live) /\ (source ∈ live)
  | copy_assign this source | move_assign this source =>
      (this ∈ live) /\ (source ∈ live)
  end.

Definition live_after (live : gset nat) (op : operation) : gset nat :=
  match op with
  | default_construct this | file_construct this _
  | copy_construct this _ | move_construct this _ => live ∪ {[ this ]}
  | destroy this => live ∖ {[ this ]}
  | copy_assign _ _ | move_assign _ _ | set_handles _ _ _ _ => live
  end.

(** Every live chatbot has its storage; an image handle that is not null
    points to a bitmap of the free store, and no two live chatbots hold
    the same one. *)
Definition image_ownership (live : gset nat) (m : Memory) : Prop :=
  (forall a, a ∈ live -> is_Some (bots m !! a)) /\
  forall a b i,
    a ∈ live -> bots m !! a = Some b -> _image b = Addr i ->
    is_Some (bitmaps m !! i) /\
    forall a' b', a' ∈ live -> a' <> a -> bots m !! a' = Some b' ->
                  _image b' <> Addr i.

(** The states reached from a memory without live chatbot by operations
    that the language allows and that return. *)
Inductive reachable (GraphNode_of_id : nat -> GraphNode)
  : gset nat -> Memory -> Prop :=
| reachable_start m : reachable GraphNode_of_id ∅ m
| reachable_step live m op m' :
    reachable GraphNode_of_id live m ->
    lifetime_allows live op ->
    run_operation GraphNode_of_id op m = Some m' ->
    reachable GraphNode_of_id (live_after live op) m'.

(** A bitmap that is still in the free store while no live chatbot holds
    its address: no destructor will delete it. *)
Definition leaked_bitmap (live : gset nat) (m : Memory) (i : nat) : Prop :=
  is_Some (bitmaps m !! i) /\
  forall a b, a ∈ live -> bots m !! a = Some b -> _image b <> Addr i.

(* ================================================================== *)
(** ** Vocabulary of the further properties *)

(** Every keyword of every outgoing edge is short enough for its
    distances to be non-negative [int]s. *)
Definition keywords_fit_int (n : GraphNode) : Prop :=
  Forall (fun e => Forall fits_int (_keywords e)) (_childEdges n).

(** Two strings that differ by case only. *)
Definition same_ignoring_case (a b : std_string) : Prop :=
  transform_toupper a = transform_toupper b.

(** A node whose two outgoing edges carry no keyword. *)
Definition silent_node : GraphNode :=
  {| node_id := 7;
     _childEdges := [ {| edge_id := 20; _childNode := Addr 1; _keywords := [] |};
                      {| edge_id := 21; _childNode := Addr 2; _keywords := [] |} ];
     _answers := [str "..."] |}.

Definition silent_world : World :=
  {| nodes := <[7%nat := silent_node]> demo_nodes;
     chatbot := {| _image := Addr 500; _currentNode := Addr 7;
                   _rootNode := Addr 0; _chatLogic := Addr 900 |};
     delivered := [];
     clock := 1700000001 |}.

(** A node built from its identifier alone, for running the copy
    operations. *)
Definition bare_GraphNode (id : nat) : GraphNode :=
  {| node_id := id; _childEdges := []; _answers := [] |}.

(** Storage for three chatbots, an empty free store of bitmaps and the
    nodes of the example graph. *)
Definition demo_memory : Memory :=
  {| bots := <[0%nat := demo_bot]> (<[1%nat := demo_bot]>
             (<[2%nat := demo_bot]> ∅));
     bitmaps := ∅;
     heap_nodes := demo_nodes |}.

(** The chatbot at address 0 has been built from a file. *)
Definition demo_memory_loaded : Memory :=
  {| bots := <[0%nat := {| _image := Addr 0; _currentNode := Addr 1;
                           _rootNode := nullptr; _chatLogic := nullptr |}]>
             (bots demo_memory);
     bitmaps := {[ 0%nat := wxBitmap_from_file (str "chatbot.png") ]};
     heap_nodes := demo_nodes |}.

(** It has then been placed on the root node of the example graph and
    given its chat logic. *)
Definition demo_memory_built : Memory :=
  {| bots := <[0%nat := {| _image := Addr 0; _currentNode := Addr 0;
                           _rootNode := Addr 0; _chatLogic := Addr 900 |}]>
             (bots demo_memory);
     bitmaps := {[ 0%nat := wxBitmap_from_file (str "chatbot.png") ]};
     heap_nodes := demo_nodes |}.

Definition demo_live : gset nat :=
  live_after (live_after ∅ (file_construct 0 (str "chatbot.png")))
             (set_handles 0 (Addr 0) (Addr 0) (Addr 900)).

(** A second chatbot has then been built from a file at address 1. *)
Definition demo_memory_pair : Memory :=
  {| bots := <[1%nat := {| _image := Addr 1; _currentNode := Addr 1;
                           _rootNode := nullptr; _chatLogic := nullptr |}]>
             (bots demo_memory_built);
     bitmaps := <[1%nat := wxBitmap_from_file (str "user.png")]>
                (bitmaps demo_memory_built);
     heap_nodes := demo_nodes |}.

Definition demo_live_pair : gset nat :=
  live_after demo_live (file_construct 1 (str "user.png")).

(** Forty distances on which the introsort of libstdc++ reaches its depth
    limit and goes on with heap sort; each is paired with its position. *)
Definition deep_recursion_keys : list Z :=
  [19; 0; 18; 1; 17; 2; 16; 3; 18; 4; 16; 5; 19; 6; 15; 7; 17; 8; 10; 9;
   0; 1; 2; 3; 4; 5; 6; 7; 8; 9; 15; 13; 14; 12; 13; 11; 12; 10; 11; 14].

Definition deep_recursion_input : list (nat * Z) :=
  imap (fun i d => (i, d)) deep_recursion_keys.

Definition by_distance (a b : nat * Z) : bool := a.2 <? b.2.
(* ================================================================== *)
(** * Properties *)

Ltac run_M :=
  unfold mbind, M_bind, mret, M_ret, get_chatbot, get_clock,
    assign_currentNode, or_undefined, throw, undefined; cbn [chatbot
    nodes delivered clock _image _currentNode _rootNode _chatLogic].

(** ** Machine integers *)

Lemma size_t_wrap_small z : 0 <= z < size_t_modulus -> size_t_wrap z = z.
Proof. intros H. unfold size_t_wrap. now apply Z.mod_small. Qed.

Lemma size_t_add_small a b :
  0 <= a + b < size_t_modulus -> size_t_add a b = a + b.
Proof. apply size_t_wrap_small. Qed.

Lemma to_int_small z : INT_MIN <= z <= INT_MAX -> to_int z = z.
Proof.
  unfold to_int, INT_MIN, INT_MAX. intros H.
  rewrite Z.mod_small; lia.
Qed.

Lemma to_int_range z : INT_MIN <= to_int z <= INT_MAX.
Proof.
  unfold to_int, INT_MIN, INT_MAX.
  pose proof (Z.mod_pos_bound (z + 2 ^ 31) (2 ^ 32) ltac:(lia)). lia.
Qed.

Lemma size_fits {A} (l : list A) : fits_size_t l -> size l = Z.of_nat (length l).
Proof.
  unfold fits_size_t, size. intros H. apply size_t_wrap_small. lia.
Qed.

(** ** Move constructor and move assignment *)

Lemma move_handles_spec (this source : nat) (mem : objects) (s t : ChatBot) :
  this <> source ->
  mem !! source = Some s ->
  mem !! this = Some t ->
  move_handles this source mem
  = Some (<[source := null_ChatBot]> (<[this := s]> mem)).
Proof.
  intros Hne Hs Ht. unfold move_handles, copy_member, write_member.
  destruct s as [si sc sr sl], t as [ti tc tr tl].
  repeat (first
    [ rewrite Hs | rewrite Ht
    | rewrite lookup_insert_eq
    | rewrite lookup_insert_ne by congruence
    | rewrite insert_insert_eq
    | rewrite (insert_insert_ne _ source this) by congruence ];
    cbn [mbind option_bind with_image with_currentNode with_rootNode
         with_chatLogic _image _currentNode _rootNode _chatLogic]).
  reflexivity.
Qed.

(** C10. After the move constructor or the move assignment operator has
    run with a source distinct from the target, the four handles of the
    moved-from chatbot (image, current node, root node, chat logic) are
    null and the target holds the handles the source had before the move. *)
Theorem move_transfers_handles_and_nulls_source
    (this source : nat) (mem : objects) (s t : ChatBot) :
  this <> source ->
  mem !! source = Some s ->
  mem !! this = Some t ->
  forall move, move = ChatBot_move_constructor \/ move = ChatBot_move_assignment ->
  exists mem' target moved_from,
    move this source mem = Some mem' /\
    mem' !! this = Some target /\
    mem' !! source = Some moved_from /\
    (_image moved_from = nullptr /\ _currentNode moved_from = nullptr /\
     _rootNode moved_from = nullptr /\ _chatLogic moved_from = nullptr) /\
    (_image target = _image s /\ _currentNode target = _currentNode s /\
     _rootNode target = _rootNode s /\ _chatLogic target = _chatLogic s).
Proof.
  intros Hne Hs Ht move Hmove.
  exists (<[source := null_ChatBot]> (<[this := s]> mem)), s, null_ChatBot.
  split.
  - destruct Hmove as [-> | ->].
    + unfold ChatBot_move_constructor. eauto using move_handles_spec.
    + unfold ChatBot_move_assignment.
      destruct (decide (this = source)) as [Heq | _]; [contradiction |].
      eauto using move_handles_spec.
  - rewrite lookup_insert_ne by congruence.
    rewrite !lookup_insert_eq. repeat split; reflexivity.
Qed.

Lemma move_transfers_handles_and_nulls_source_witness :
  exists mem' target moved_from,
    ChatBot_move_assignment 3 7 demo_objects = Some mem' /\
    mem' !! 3%nat = Some target /\
    mem' !! 7%nat = Some moved_from /\
    (_image moved_from = nullptr /\ _currentNode moved_from = nullptr /\
     _rootNode moved_from = nullptr /\ _chatLogic moved_from = nullptr) /\
    (_image target = _image demo_bot /\
     _currentNode target = _currentNode demo_bot /\
     _rootNode target = _rootNode demo_bot /\
     _chatLogic target = _chatLogic demo_bot).
Proof.
  apply (move_transfers_handles_and_nulls_source 3 7 demo_objects
           demo_bot null_ChatBot).
  - lia.
  - reflexivity.
  - reflexivity.
  - right. reflexivity.
Defined.

(** Move assignment onto itself leaves the object as it is. *)
Lemma move_assignment_self (this : nat) (mem : objects) :
  ChatBot_move_assignment this this mem = Some mem.
Proof.
  unfold ChatBot_move_assignment.
  destruct (decide (this = this)); [reflexivity | contradiction].
Qed.

(** ** Response emission *)

Lemma vector_at_in_range {A} (v : list A) (idx : Z) (w : World) :
  0 <= idx < Z.of_nat (length v) ->
  fits_size_t v ->
  exists x, vector_at v idx w = Done x w /\ v !! Z.to_nat idx = Some x.
Proof.
  intros Hidx Hfit. unfold vector_at.
  rewrite (size_fits v Hfit).
  assert (Hw : size_t_wrap idx = idx).
  { apply size_t_wrap_small. unfold fits_size_t in Hfit. lia. }
  rewrite Hw.
  destruct (Z.ltb_spec idx (Z.of_nat (length v))) as [_ | ?]; [| lia].
  destruct (lookup_lt_is_Some_2 v (Z.to_nat idx)) as [x Hx]; [lia |].
  exists x. rewrite Hx. split; [reflexivity | reflexivity].
Qed.

Lemma vector_at_empty {A} (idx : Z) (w : World) :
  vector_at (@nil A) idx w = Throws out_of_range w.
Proof.
  unfold vector_at, size. cbn [length].
  change (size_t_wrap (Z.of_nat 0)) with 0.
  pose proof (Z.mod_pos_bound idx size_t_modulus ltac:(reflexivity)) as Hb.
  unfold size_t_wrap.
  destruct (Z.ltb_spec (idx mod size_t_modulus) 0); [lia | reflexivity].
Qed.

Lemma modular_draw_contract : uniform_int_contract modular_draw.
Proof.
  intros seed a b Hab. unfold modular_draw.
  destruct (Z.leb_spec a b) as [_ | ?]; [| lia].
  pose proof (Z.mod_pos_bound seed (b - a + 1) ltac:(lia)). lia.
Qed.

(** What [SetCurrentNode] does on a node with answers, step by step. *)
Lemma SetCurrentNode_run (dis : draw_fun) (w : World) (a c : nat) (n : GraphNode) :
  uniform_int_contract dis ->
  nodes w !! a = Some n ->
  _chatLogic (chatbot w) = Addr c ->
  0 < Z.of_nat (length (_answers n)) <= INT_MAX + 1 ->
  exists answer,
    answer ∈ _answers n /\
    SetCurrentNode dis (Addr a) w
    = Done tt {| nodes := nodes w;
                 chatbot := with_currentNode (Addr a) (chatbot w);
                 delivered := delivered w ++ [answer];
                 clock := clock w |}.
Proof.
  intros Hdis Hn Hc Hlen. unfold INT_MAX in Hlen.
  assert (Hfit : fits_size_t (_answers n)).
  { unfold fits_size_t, size_t_modulus. lia. }
  set (b := to_int (size_t_sub (size (_answers n)) 1)).
  assert (Hb : b = Z.of_nat (length (_answers n)) - 1).
  { unfold b. rewrite (size_fits _ Hfit). unfold size_t_sub.
    rewrite size_t_wrap_small by (unfold size_t_modulus; lia).
    apply to_int_small. unfold INT_MIN, INT_MAX. lia. }
  pose proof (Hdis (to_int (clock w)) 0 b ltac:(lia)) as Hidx.
  set (w1 := {| nodes := nodes w;
                chatbot := with_currentNode (Addr a) (chatbot w);
                delivered := delivered w; clock := clock w |}).
  destruct (vector_at_in_range (_answers n)
              (dis (to_int (clock w)) 0 b) w1 ltac:(lia) Hfit)
    as (answer & Hat & Hlook).
  exists answer. split.
  { apply list_elem_of_lookup. eauto. }
  unfold SetCurrentNode. run_M. unfold deref_node. cbn [nodes].
  rewrite Hn. unfold GetAnswers, uniform_int_distribution. fold b.
  destruct (Z.leb_spec 0 b) as [_ | ?]; [| lia].
  run_M. fold (with_currentNode (Addr a) (chatbot w)). fold w1.
  rewrite Hat. unfold SendMessageToUser. rewrite Hc. reflexivity.
Qed.

(** C7, as amended. On arrival at a node that has at least one and at most
    2^31 answers, with the chat-logic handle set, [SendMessageToUser] is
    called exactly once, with one of the answers of that node. *)
Theorem SetCurrentNode_sends_one_answer
    (dis : draw_fun) (w : World) (a c : nat) (n : GraphNode) :
  uniform_int_contract dis ->
  nodes w !! a = Some n ->
  _chatLogic (chatbot w) = Addr c ->
  _answers n <> [] ->
  Z.of_nat (length (_answers n)) <= INT_MAX + 1 ->
  exists answer w',
    SetCurrentNode dis (Addr a) w = Done tt w' /\
    delivered w' = delivered w ++ [answer] /\
    answer ∈ _answers n /\
    _currentNode (chatbot w') = Addr a.
Proof.
  intros Hdis Hn Hc Hne Hlen.
  assert (0 < Z.of_nat (length (_answers n))) as Hpos.
  { destruct (_answers n); [contradiction | cbn [length]; lia]. }
  destruct (SetCurrentNode_run dis w a c n Hdis Hn Hc ltac:(lia))
    as (answer & Hin & Hrun).
  eexists answer, _. split; [exact Hrun |]. cbn. auto.
Qed.

Lemma SetCurrentNode_sends_one_answer_witness :
  exists answer w',
    SetCurrentNode modular_draw (Addr 1) (demo_world_at (Addr 0)) = Done tt w' /\
    delivered w' = delivered (demo_world_at (Addr 0)) ++ [answer] /\
    answer ∈ _answers node_weather /\
    _currentNode (chatbot w') = Addr 1.
Proof.
  apply (SetCurrentNode_sends_one_answer modular_draw
           (demo_world_at (Addr 0)) 1 900 node_weather).
  - exact modular_draw_contract.
  - reflexivity.
  - reflexivity.
  - discriminate.
  - vm_compute. discriminate.
Defined.

Example SetCurrentNode_demo :
  delivered_after (SetCurrentNode modular_draw (Addr 1) (demo_world_at (Addr 0)))
  = Some [str "Rainy"].
Proof. vm_compute. reflexivity. Qed.

(** With more than 2^31 answers the upper bound handed to the
    distribution is negative: the draw is outside the contract of the
    library and nothing is sent. *)
Lemma SetCurrentNode_crowded_node_undefined :
  _answers crowded_node <> [] /\
  SetCurrentNode modular_draw (Addr 5) crowded_world = Undefined.
Proof.
  assert (Hlen : Z.of_nat (length (_answers crowded_node)) = 2147483649).
  { unfold crowded_node. cbn [_answers].
    rewrite length_replicate. apply Z2Nat.id. lia. }
  split.
  - intros Heq. rewrite Heq in Hlen. discriminate Hlen.
  - unfold SetCurrentNode. run_M. unfold deref_node, crowded_world.
    cbn [nodes]. rewrite lookup_singleton_eq.
    unfold GetAnswers, uniform_int_distribution, size. rewrite Hlen.
    reflexivity.
Qed.

(** On a node without answers the distribution is built over the empty
    range from 0 to -1, whatever the generator: the behaviour is undefined
    before [at] is reached. *)
Lemma SetCurrentNode_no_answer (dis : draw_fun) (w : World) (a : nat) (n : GraphNode) :
  nodes w !! a = Some n ->
  _answers n = [] ->
  SetCurrentNode dis (Addr a) w = Undefined.
Proof.
  intros Hn Hnil. unfold SetCurrentNode. run_M. unfold deref_node.
  cbn [nodes]. rewrite Hn. unfold GetAnswers. rewrite Hnil.
  reflexivity.
Qed.

(** C8. Entering the node without answers of the example graph: no
    exception reaches the caller, the call has undefined behaviour. *)
Theorem SetCurrentNode_empty_answers_not_surfaced :
  SetCurrentNode modular_draw (Addr 3) (demo_world_at (Addr 0)) = Undefined /\
  ~ (exists e w',
       SetCurrentNode modular_draw (Addr 3) (demo_world_at (Addr 0)) = Throws e w').
Proof.
  assert (H : SetCurrentNode modular_draw (Addr 3) (demo_world_at (Addr 0))
              = Undefined).
  { apply (SetCurrentNode_no_answer _ _ 3 node_mute); reflexivity. }
  split; [exact H |].
  intros (e & w' & Hthrows). rewrite H in Hthrows. discriminate.
Qed.

(** ** The recurrence and the least number of edits *)

Section LevFacts.
Context {A : Type} `{EqDecision A}.
Implicit Types (s t u : list A) (c d : A).

Lemma lev_nil_l t : lev [] t = length t.
Proof. reflexivity. Qed.

Lemma lev_nil_r s : lev s [] = length s.
Proof. destruct s; reflexivity. Qed.

Lemma lev_cons_cons c s d t :
  lev (c :: s) (d :: t)
  = Nat.min (Nat.min (S (lev s (d :: t))) (S (lev (c :: s) t)))
            (lev s t + (if decide (c = d) then 0 else 1))%nat.
Proof. reflexivity. Qed.

Lemma lev_del_le c s t : (lev (c :: s) t <= S (lev s t))%nat.
Proof.
  destruct t as [| d t].
  - rewrite !lev_nil_r. cbn [length]. lia.
  - rewrite lev_cons_cons. lia.
Qed.

Lemma lev_ins_le d s t : (lev s (d :: t) <= S (lev s t))%nat.
Proof.
  destruct s as [| c s].
  - rewrite !lev_nil_l. cbn [length]. lia.
  - rewrite lev_cons_cons. lia.
Qed.

Lemma lev_undel_le c s t : (lev s t <= S (lev (c :: s) t))%nat.
Proof.
  induction t as [| d t IH].
  - rewrite !lev_nil_r. cbn [length]. lia.
  - rewrite lev_cons_cons.
    pose proof (lev_ins_le d s t). destruct (decide (c = d)); lia.
Qed.

Lemma lev_unins_le d s t : (lev s t <= S (lev s (d :: t)))%nat.
Proof.
  induction s as [| c s IH].
  - rewrite !lev_nil_l. cbn [length]. lia.
  - rewrite lev_cons_cons.
    pose proof (lev_del_le c s t). destruct (decide (c = d)); lia.
Qed.

Lemma lev_sub_le c d s t : (lev (c :: s) t <= S (lev (d :: s) t))%nat.
Proof.
  induction t as [| e t IH].
  - rewrite !lev_nil_r. cbn [length]. lia.
  - rewrite (lev_cons_cons d).
    pose proof (lev_del_le c s (e :: t)).
    pose proof (lev_ins_le e (c :: s) t).
    assert (lev (c :: s) (e :: t) <= S (lev s t))%nat.
    { rewrite lev_cons_cons. destruct (decide (c = e)); lia. }
    destruct (decide (d = e)); lia.
Qed.

(** An edit behind a common first character costs no more than the edit
    itself. *)
Lemma lev_under_cons c s u :
  (forall t, (lev s t <= S (lev u t))%nat) ->
  forall t, (lev (c :: s) t <= S (lev (c :: u) t))%nat.
Proof.
  intros Hsu. induction t as [| d t IH].
  - rewrite !lev_nil_r. cbn [length].
    specialize (Hsu []). rewrite !lev_nil_r in Hsu. lia.
  - rewrite !lev_cons_cons.
    pose proof (Hsu (d :: t)). pose proof (Hsu t).
    destruct (decide (c = d)); lia.
Qed.

Lemma edit1_lev s u : edit1 s u -> forall t, (lev s t <= S (lev u t))%nat.
Proof.
  intros Hedit. destruct Hedit as [p c q | p c q | p c d q].
  - induction p as [| a p IH]; cbn [app].
    + intros t. apply lev_undel_le.
    + apply lev_under_cons, IH.
  - induction p as [| a p IH]; cbn [app].
    + intros t. apply lev_del_le.
    + apply lev_under_cons, IH.
  - induction p as [| a p IH]; cbn [app].
    + intros t. apply lev_sub_le.
    + apply lev_under_cons, IH.
Qed.

Lemma lev_diag s : lev s s = 0%nat.
Proof.
  induction s as [| c s IH]; [reflexivity |].
  rewrite lev_cons_cons, IH.
  destruct (decide (c = c)); [lia | contradiction].
Qed.

(** No sequence of edits is shorter than what the recurrence says. *)
Lemma edits_lev_le n s t : edits n s t -> (lev s t <= n)%nat.
Proof.
  induction 1 as [s | n s u t Hstep _ IH].
  - rewrite lev_diag. lia.
  - pose proof (edit1_lev s u Hstep t). lia.
Qed.

Lemma edit1_cons c s t : edit1 s t -> edit1 (c :: s) (c :: t).
Proof.
  intros [p e q | p e q | p e f q].
  - apply (edit1_ins (c :: p)).
  - apply (edit1_del (c :: p)).
  - apply (edit1_sub (c :: p)).
Qed.

Lemma edits_cons c n s t : edits n s t -> edits n (c :: s) (c :: t).
Proof.
  induction 1 as [s | n s u t Hstep _ IH].
  - constructor.
  - econstructor; [apply edit1_cons, Hstep | exact IH].
Qed.

Lemma edits_insert_front d n s t : edits n s t -> edits (S n) s (d :: t).
Proof.
  intros H. apply (edits_S n s (d :: s)).
  - apply (edit1_ins [] d s).
  - apply edits_cons, H.
Qed.

Lemma edits_delete_front c n s t : edits n s t -> edits (S n) (c :: s) t.
Proof.
  intros H. apply (edits_S n (c :: s) s); [apply (edit1_del [] c s) | exact H].
Qed.

Lemma edits_substitute_front c d n s t :
  edits n s t -> edits (S n) (c :: s) (d :: t).
Proof.
  intros H. apply (edits_S n (c :: s) (d :: s)).
  - apply (edit1_sub [] c d s).
  - apply edits_cons, H.
Qed.

(** The recurrence is reached by a sequence of edits. *)
Lemma edits_lev s t : edits (lev s t) s t.
Proof.
  revert t. induction s as [| c s IHs]; intros t.
  - rewrite lev_nil_l. induction t as [| d t IHt]; cbn [length].
    + constructor.
    + apply edits_insert_front, IHt.
  - induction t as [| d t IHt].
    + rewrite lev_nil_r. cbn [length]. apply edits_delete_front.
      specialize (IHs []). rewrite lev_nil_r in IHs. exact IHs.
    + rewrite lev_cons_cons.
      set (x := S (lev s (d :: t))). set (y := S (lev (c :: s) t)).
      set (z := (lev s t + (if decide (c = d) then 0 else 1))%nat).
      assert (Hx : edits x (c :: s) (d :: t)) by apply edits_delete_front, IHs.
      assert (Hy : edits y (c :: s) (d :: t)) by apply edits_insert_front, IHt.
      assert (Hz : edits z (c :: s) (d :: t)).
      { unfold z. destruct (decide (c = d)) as [-> | _].
        - rewrite Nat.add_0_r. apply edits_cons, IHs.
        - rewrite Nat.add_1_r. apply edits_substitute_front, IHs. }
      destruct (Nat.min_spec (Nat.min x y) z) as [[_ ->] | [_ ->]];
        [| exact Hz].
      destruct (Nat.min_spec x y) as [[_ ->] | [_ ->]]; assumption.
Qed.

Theorem lev_is_edit_distance s t : is_edit_distance s t (lev s t).
Proof. split; [apply edits_lev | intros k; apply edits_lev_le]. Qed.

Lemma edit1_rev s t : edit1 s t -> edit1 (rev s) (rev t).
Proof.
  intros [p c q | p c q | p c d q];
    rewrite ?rev_app_distr; cbn [rev]; rewrite ?rev_app_distr;
    rewrite <- ?app_assoc; cbn [app].
  - apply edit1_ins.
  - apply edit1_del.
  - apply edit1_sub.
Qed.

Lemma edits_rev n s t : edits n s t -> edits n (rev s) (rev t).
Proof.
  induction 1 as [s | n s u t Hstep _ IH].
  - constructor.
  - econstructor; [apply edit1_rev, Hstep | exact IH].
Qed.

Lemma lev_rev s t : lev (rev s) (rev t) = lev s t.
Proof.
  apply Nat.le_antisymm.
  - apply edits_lev_le, edits_rev, edits_lev.
  - rewrite <- (rev_involutive s), <- (rev_involutive t) at 1.
    apply edits_lev_le, edits_rev, edits_lev.
Qed.

Lemma edit1_sym s t : edit1 s t -> edit1 t s.
Proof.
  intros [p c q | p c q | p c d q].
  - apply edit1_del.
  - apply edit1_ins.
  - apply edit1_sub.
Qed.

Lemma edits_snoc n s u t : edits n s u -> edit1 u t -> edits (S n) s t.
Proof.
  induction 1 as [s | n s v u Hstep _ IH]; intros Hlast.
  - econstructor; [exact Hlast | constructor].
  - econstructor; [exact Hstep | now apply IH].
Qed.

Lemma edits_sym n s t : edits n s t -> edits n t s.
Proof.
  induction 1 as [s | n s u t Hstep _ IH].
  - constructor.
  - eapply edits_snoc; [exact IH | now apply edit1_sym].
Qed.

Lemma lev_sym s t : lev s t = lev t s.
Proof.
  apply Nat.le_antisymm; apply edits_lev_le, edits_sym, edits_lev.
Qed.

Lemma lev_le_max s t : (lev s t <= Nat.max (length s) (length t))%nat.
Proof.
  revert t. induction s as [| c s IH]; intros [| d t].
  - cbn. lia.
  - rewrite lev_nil_l. lia.
  - rewrite lev_nil_r. lia.
  - rewrite lev_cons_cons. specialize (IH t). cbn [length].
    destruct (decide (c = d)); lia.
Qed.

(** The cell rule of the routine: on equal characters the corner is
    taken, otherwise one more than the least of the three neighbours. *)
Lemma lev_cell c s d t :
  lev (c :: s) (d :: t)
  = if decide (c = d) then lev s t
    else S (Nat.min (lev (c :: s) t) (Nat.min (lev s (d :: t)) (lev s t))).
Proof.
  rewrite lev_cons_cons.
  pose proof (lev_unins_le d s t). pose proof (lev_undel_le c s t).
  destruct (decide (c = d)) as [-> | _]; lia.
Qed.

End LevFacts.

(** ** The rolling row computes the recurrence *)

Lemma Z_ltb_min a b : (if a <? b then a else b) = Z.min a b.
Proof. destruct (Z.ltb_spec a b); lia. Qed.

Section RollingRow.
Variables s1 s2 : std_string.
Hypothesis s1_fits : fits_size_t s1.
Hypothesis s2_fits : fits_size_t s2.

Lemma cell_0_l j : (j <= length s2)%nat -> cell s1 s2 0 j = Z.of_nat j.
Proof.
  intros Hj. unfold cell. rewrite take_0. cbn [rev].
  rewrite lev_nil_l, length_rev, length_take. lia.
Qed.

Lemma cell_0_r i : (i <= length s1)%nat -> cell s1 s2 i 0 = Z.of_nat i.
Proof.
  intros Hi. unfold cell. rewrite take_0. cbn [rev].
  rewrite lev_nil_r, length_rev, length_take. lia.
Qed.

Lemma cell_bound i j :
  0 <= cell s1 s2 i j <= Z.max (Z.of_nat (length s1)) (Z.of_nat (length s2)).
Proof.
  unfold cell.
  pose proof (lev_le_max (rev (take i s1)) (rev (take j s2))) as H.
  rewrite !length_rev, !length_take in H. lia.
Qed.

Lemma cell_small i j : 0 <= cell s1 s2 i j < size_t_modulus - 1.
Proof.
  pose proof (cell_bound i j). unfold fits_size_t in s1_fits, s2_fits. lia.
Qed.

Lemma cell_S_S i j c1 c2 :
  s1 !! i = Some c1 -> s2 !! j = Some c2 ->
  cell s1 s2 (S i) (S j)
  = if Ascii.eqb c1 c2 then cell s1 s2 i j
    else Z.min (cell s1 s2 (S i) j)
               (Z.min (cell s1 s2 i (S j)) (cell s1 s2 i j)) + 1.
Proof.
  intros H1 H2. unfold cell.
  rewrite (take_S_r s1 i c1 H1), (take_S_r s2 j c2 H2), !rev_unit.
  rewrite lev_cell.
  destruct (Ascii.eqb_spec c1 c2) as [Heq | Hne];
    destruct (decide (c1 = c2)); try contradiction; [reflexivity | lia].
Qed.

Lemma array_get_nat (costs : array) (k : nat) (v : Z) :
  costs !! k = Some (Some v) -> array_get costs (Z.of_nat k) = Some v.
Proof. intros H. unfold array_get. now rewrite Nat2Z.id, H. Qed.

Lemma array_set_nat (costs : array) (k : nat) (v : Z) :
  (k < length costs)%nat ->
  array_set costs (Z.of_nat k) v = Some (<[k := Some v]> costs).
Proof.
  intros Hk. unfold array_set. rewrite Nat2Z.id.
  destruct (decide (k < length costs)%nat); [reflexivity | contradiction].
Qed.

Lemma size_t_succ (k : nat) :
  Z.of_nat k < size_t_modulus - 1 -> size_t_add (Z.of_nat k) 1 = Z.of_nat (S k).
Proof.
  intros Hk. rewrite size_t_add_small by lia. lia.
Qed.

(** One more cell of row [i + 1] is in place after [costs[j + 1]] is
    written. *)
Lemma partial_row_step i j costs v :
  (j < length s2)%nat ->
  partial_row s1 s2 i j costs ->
  v = cell s1 s2 (S i) (S j) ->
  partial_row s1 s2 i (S j) (<[S j := Some v]> costs).
Proof.
  intros Hj (Hlen & Hnew & Hold) ->. split; [| split].
  - now rewrite length_insert.
  - intros k Hk. destruct (decide (k = S j)) as [-> | Hne].
    + apply list_lookup_insert_eq. lia.
    + rewrite list_lookup_insert_ne by congruence. apply Hnew. lia.
  - intros k Hk. rewrite list_lookup_insert_ne by lia. apply Hold. lia.
Qed.

Lemma inner_loop_spec i c1 :
  s1 !! i = Some c1 ->
  forall it2 j costs,
    drop j s2 = it2 ->
    (j <= length s2)%nat ->
    partial_row s1 s2 i j costs ->
    exists costs',
      inner_loop c1 it2 (Z.of_nat j) (cell s1 s2 i j) costs = Some costs' /\
      full_row s1 s2 (S i) costs'.
Proof.
  intros Hc1. induction it2 as [| c2 it2 IH]; intros j costs Hdrop Hj Hrow.
  - exists costs. split; [reflexivity |].
    assert (j = length s2) as ->.
    { apply (f_equal length) in Hdrop. rewrite length_drop in Hdrop.
      cbn [length] in Hdrop. lia. }
    destruct Hrow as (Hlen & Hnew & _). split; assumption.
  - assert (Hc2 : s2 !! j = Some c2).
    { rewrite <- (Nat.add_0_r j), <- lookup_drop, Hdrop. reflexivity. }
    assert (Hlt : (j < length s2)%nat) by (eapply lookup_lt_Some; eauto).
    assert (Hdrop' : drop (S j) s2 = it2).
    { rewrite (drop_S s2 c2 j Hc2) in Hdrop. now inversion Hdrop. }
    pose proof Hrow as (Hlen & Hnew & Hold).
    assert (Hsucc : size_t_add (Z.of_nat j) 1 = Z.of_nat (S j)).
    { apply size_t_succ. unfold fits_size_t in s2_fits. lia. }
    cbn [inner_loop]. rewrite Hsucc.
    rewrite (array_get_nat costs (S j) _ (Hold (S j) ltac:(lia))).
    cbn [mbind option_bind].
    pose proof (cell_S_S i j c1 c2 Hc1 Hc2) as Hcell.
    destruct (Ascii.eqb c1 c2).
    + rewrite array_set_nat by lia. cbn [mbind option_bind].
      apply (IH (S j)); [assumption | lia |].
      apply partial_row_step; auto.
    + rewrite (array_get_nat costs j _ (Hnew j ltac:(lia))).
      cbn [mbind option_bind].
      rewrite !Z_ltb_min.
      pose proof (cell_small (S i) (S j)) as Hsmall.
      rewrite size_t_add_small by (rewrite Hcell in Hsmall; lia).
      rewrite array_set_nat by lia. cbn [mbind option_bind].
      apply (IH (S j)); [assumption | lia |].
      apply partial_row_step; auto.
Qed.

Lemma outer_loop_spec :
  forall it1 i costs,
    drop i s1 = it1 ->
    (i <= length s1)%nat ->
    full_row s1 s2 i costs ->
    exists costs',
      outer_loop it1 s2 (Z.of_nat i) costs = Some costs' /\
      full_row s1 s2 (length s1) costs'.
Proof.
  induction it1 as [| c1 it1 IH]; intros i costs Hdrop Hi Hrow.
  - exists costs. split; [reflexivity |].
    assert (i = length s1) as ->; [| assumption].
    apply (f_equal length) in Hdrop. rewrite length_drop in Hdrop.
    cbn [length] in Hdrop. lia.
  - assert (Hc1 : s1 !! i = Some c1).
    { rewrite <- (Nat.add_0_r i), <- lookup_drop, Hdrop. reflexivity. }
    assert (Hlt : (i < length s1)%nat) by (eapply lookup_lt_Some; eauto).
    assert (Hdrop' : drop (S i) s1 = it1).
    { rewrite (drop_S s1 c1 i Hc1) in Hdrop. now inversion Hdrop. }
    destruct Hrow as (Hlen & Hcells).
    assert (Hsucc : size_t_add (Z.of_nat i) 1 = Z.of_nat (S i)).
    { apply size_t_succ. unfold fits_size_t in s1_fits. lia. }
    cbn [outer_loop]. rewrite Hsucc.
    rewrite (array_set_nat costs 0) by lia. cbn [mbind option_bind].
    assert (Hpart : partial_row s1 s2 i 0 (<[0%nat := Some (Z.of_nat (S i))]> costs)).
    { split; [| split].
      - now rewrite length_insert.
      - intros k Hk. assert (k = 0%nat) as -> by lia.
        rewrite list_lookup_insert_eq by lia.
        now rewrite cell_0_r by lia.
      - intros k Hk. rewrite list_lookup_insert_ne by lia. apply Hcells. lia. }
    destruct (inner_loop_spec i c1 Hc1 s2 0 _ (drop_0 s2) ltac:(lia) Hpart)
      as (costs1 & Hinner & Hrow1).
    change 0 with (Z.of_nat 0). rewrite <- (cell_0_r i) by lia.
    rewrite Hinner. cbn [mbind option_bind].
    apply (IH (S i)); [assumption | lia | assumption].
Qed.

Lemma init_loop_spec :
  forall steps k costs,
    (k + steps = S (length s2))%nat ->
    length costs = S (length s2) ->
    (forall q, (q < k)%nat -> costs !! q = Some (Some (Z.of_nat q))) ->
    exists costs',
      init_loop steps (Z.of_nat k) costs = Some costs' /\
      length costs' = S (length s2) /\
      forall q, (q <= length s2)%nat -> costs' !! q = Some (Some (Z.of_nat q)).
Proof.
  induction steps as [| steps IH]; intros k costs Hk Hlen Hdone.
  - exists costs. split; [reflexivity |]. split; [assumption |].
    intros q Hq. apply Hdone. lia.
  - cbn [init_loop]. rewrite array_set_nat by lia. cbn [mbind option_bind].
    rewrite size_t_succ by (unfold fits_size_t in s2_fits; lia).
    apply (IH (S k)).
    + lia.
    + now rewrite length_insert.
    + intros q Hq. destruct (decide (q = k)) as [-> | Hne].
      * apply list_lookup_insert_eq. lia.
      * rewrite list_lookup_insert_ne by congruence. apply Hdone. lia.
Qed.

End RollingRow.

(** ** ChatBot::ComputeLevenshteinDistance *)

Lemma size_transform_toupper (s : std_string) :
  fits_size_t s -> size (transform_toupper s) = Z.of_nat (length s).
Proof.
  intros Hs. unfold size, transform_toupper. rewrite length_map.
  apply size_t_wrap_small. unfold fits_size_t in Hs. lia.
Qed.

Lemma fits_transform_toupper (s : std_string) :
  fits_size_t s -> fits_size_t (transform_toupper s).
Proof. unfold fits_size_t, transform_toupper. now rewrite length_map. Qed.

(** The routine stays inside [costs] and returns the value of the
    recurrence on the upper-cased strings, converted to [int]. *)
Lemma ComputeLevenshteinDistance_value (a b : std_string) :
  fits_size_t a -> fits_size_t b ->
  ComputeLevenshteinDistance a b
  = Some (to_int (Z.of_nat (lev (transform_toupper a) (transform_toupper b)))).
Proof.
  intros Ha Hb. unfold ComputeLevenshteinDistance. cbv zeta.
  rewrite (size_transform_toupper a Ha), (size_transform_toupper b Hb).
  set (ua := transform_toupper a). set (ub := transform_toupper b).
  assert (Hla : length ua = length a) by apply length_map.
  assert (Hlb : length ub = length b) by apply length_map.
  pose proof (fits_transform_toupper a Ha) as Hfa. fold ua in Hfa.
  pose proof (fits_transform_toupper b Hb) as Hfb. fold ub in Hfb.
  destruct (Z.eqb_spec (Z.of_nat (length a)) 0) as [Hm | Hm].
  { assert (ua = []) as -> by (apply length_zero_iff_nil; lia).
    rewrite lev_nil_l, Hlb. reflexivity. }
  destruct (Z.eqb_spec (Z.of_nat (length b)) 0) as [Hn | Hn].
  { assert (ub = []) as -> by (apply length_zero_iff_nil; lia).
    rewrite lev_nil_r, Hla. reflexivity. }
  rewrite <- Hlb.
  rewrite size_t_succ by exact Hfb. unfold new_array. rewrite Nat2Z.id.
  destruct (init_loop_spec ub Hfb (S (length ub)) 0
              (replicate (S (length ub)) None)) as (costs0 & Hinit & Hlen0 & Hcells0).
  { lia. }
  { apply length_replicate. }
  { intros q Hq. lia. }
  change (Z.of_nat 0) with 0 in Hinit. rewrite Hinit. cbn [mbind option_bind].
  destruct (outer_loop_spec ua ub Hfa Hfb ua 0 costs0) as (costs & Houter & Hrow).
  { apply drop_0. }
  { lia. }
  { split; [assumption |]. intros k Hk. rewrite cell_0_l by assumption. auto. }
  change (Z.of_nat 0) with 0 in Houter. rewrite Houter. cbn [mbind option_bind].
  destruct Hrow as (_ & Hcells).
  rewrite (array_get_nat costs _ _ (Hcells (length ub) ltac:(lia))).
  cbn [mbind option_bind].
  unfold cell. rewrite !firstn_all, lev_rev. reflexivity.
Qed.

(** The routine never leaves its array, whatever the two strings. *)
Lemma ComputeLevenshteinDistance_total (a b : std_string) :
  fits_size_t a -> fits_size_t b ->
  is_Some (ComputeLevenshteinDistance a b).
Proof.
  intros Ha Hb. rewrite ComputeLevenshteinDistance_value by assumption. eauto.
Qed.

(** The properties listed for the matcher: no distance between a string
    and itself or a string that differs by case only, and the same distance
    both ways. *)
Lemma ComputeLevenshteinDistance_same_upper_case (a b : std_string) :
  fits_size_t a -> fits_size_t b ->
  transform_toupper a = transform_toupper b ->
  ComputeLevenshteinDistance a b = Some 0.
Proof.
  intros Ha Hb Heq. rewrite ComputeLevenshteinDistance_value by assumption.
  now rewrite Heq, lev_diag.
Qed.

Lemma ComputeLevenshteinDistance_self (a : std_string) :
  fits_size_t a -> ComputeLevenshteinDistance a a = Some 0.
Proof. intros Ha. now apply ComputeLevenshteinDistance_same_upper_case. Qed.

Lemma ComputeLevenshteinDistance_sym (a b : std_string) :
  fits_size_t a -> fits_size_t b ->
  ComputeLevenshteinDistance a b = ComputeLevenshteinDistance b a.
Proof.
  intros Ha Hb. rewrite !ComputeLevenshteinDistance_value by assumption.
  now rewrite lev_sym.
Qed.

Lemma fits_int_size_t {A} (l : list A) : fits_int l -> fits_size_t l.
Proof. unfold fits_int, fits_size_t, INT_MAX, size_t_modulus. lia. Qed.

(** C1, as amended. For all strings of at most [INT_MAX] characters the
    routine returns a non-negative integer, which is the least number of
    single-character insertions, deletions and substitutions that turn
    one upper-cased string into the other; against the empty string this
    is the length of the other string. *)
Theorem ComputeLevenshteinDistance_is_edit_distance (a b : std_string) :
  fits_int a -> fits_int b ->
  exists d : nat,
    ComputeLevenshteinDistance a b = Some (Z.of_nat d) /\
    is_edit_distance (transform_toupper a) (transform_toupper b) d /\
    (a = [] -> d = length b) /\
    (b = [] -> d = length a).
Proof.
  intros Ha Hb.
  exists (lev (transform_toupper a) (transform_toupper b)).
  split; [| split; [apply lev_is_edit_distance | split]].
  - rewrite ComputeLevenshteinDistance_value by now apply fits_int_size_t.
    f_equal. apply to_int_small.
    pose proof (lev_le_max (transform_toupper a) (transform_toupper b)) as H.
    unfold transform_toupper in *. rewrite !length_map in H.
    unfold fits_int, INT_MAX in Ha, Hb. unfold INT_MIN, INT_MAX. lia.
  - intros ->. cbn [transform_toupper map]. rewrite lev_nil_l.
    apply length_map.
  - intros ->. cbn [transform_toupper map]. rewrite lev_nil_r.
    apply length_map.
Qed.

Lemma ComputeLevenshteinDistance_is_edit_distance_witness :
  exists d : nat,
    ComputeLevenshteinDistance (str "kitten") (str "Sitting") = Some (Z.of_nat d) /\
    is_edit_distance (transform_toupper (str "kitten"))
                     (transform_toupper (str "Sitting")) d /\
    (str "kitten" = [] -> d = length (str "Sitting")) /\
    (str "Sitting" = [] -> d = length (str "kitten")).
Proof.
  apply (ComputeLevenshteinDistance_is_edit_distance (str "kitten") (str "Sitting")).
  - unfold fits_int. vm_compute. discriminate.
  - unfold fits_int. vm_compute. discriminate.
Defined.

(** A string of 2^31 characters against the empty string: the length does
    not survive the conversion to [int]. *)
Lemma ComputeLevenshteinDistance_long_string_negative :
  ComputeLevenshteinDistance [] (replicate (Z.to_nat 2147483648) "a"%char)
  = Some (-2147483648).
Proof.
  cbv beta zeta delta [ComputeLevenshteinDistance transform_toupper size].
  rewrite !length_map, !length_replicate, Z2Nat.id by lia.
  reflexivity.
Qed.

Example distance_kitten_sitting :
  ComputeLevenshteinDistance (str "kitten") (str "sitting") = Some 3.
Proof. vm_compute. reflexivity. Qed.

Example distance_empty_cat :
  ComputeLevenshteinDistance (str "") (str "cat") = Some 3.
Proof. vm_compute. reflexivity. Qed.

Example distance_Cat_cAT :
  ComputeLevenshteinDistance (str "Cat") (str "cAT") = Some 0.
Proof. vm_compute. reflexivity. Qed.

Example distance_weather_whether :
  ComputeLevenshteinDistance (str "weather") (str "whether") = Some 2.
Proof. vm_compute. reflexivity. Qed.

(** ** Sorting *)

Section InsertionSort.
Context {A : Type} (cmp : A -> A -> bool).
Hypothesis cmp_swo : strict_weak_order cmp.

Lemma insert_sorted_perm x l : Permutation (insert_sorted cmp x l) (x :: l).
Proof.
  induction l as [| y l IH]; cbn [insert_sorted]; [reflexivity |].
  destruct (cmp y x); [| reflexivity].
  rewrite IH. apply perm_swap.
Qed.

Lemma insertion_sort_perm l : Permutation (insertion_sort A cmp l) l.
Proof.
  unfold insertion_sort. induction l as [| x l IH]; cbn [foldr]; [reflexivity |].
  rewrite insert_sorted_perm. now constructor.
Qed.

Lemma insert_sorted_sorted x l :
  sorted_wrt cmp l -> sorted_wrt cmp (insert_sorted cmp x l).
Proof.
  unfold sorted_wrt. induction 1 as [| y l Hl IH Hy]; cbn [insert_sorted].
  - repeat constructor.
  - destruct (cmp y x) eqn:Hyx.
    + constructor; [exact IH |].
      rewrite (Forall_forall (fun z => cmp z y = false)).
      intros z Hz. rewrite (insert_sorted_perm x l) in Hz.
      apply elem_of_cons in Hz as [-> | Hz].
      * now apply (swo_asym cmp cmp_swo).
      * rewrite Forall_forall in Hy. now apply Hy.
    + constructor; [now constructor |].
      constructor; [exact Hyx |].
      rewrite Forall_forall in Hy |- *.
      intros z Hz. apply (swo_negtrans cmp cmp_swo z y x); auto.
Qed.

Lemma insertion_sort_sorted l : sorted_wrt cmp (insertion_sort A cmp l).
Proof.
  unfold insertion_sort. induction l as [| x l IH]; cbn [foldr].
  - constructor.
  - now apply insert_sorted_sorted.
Qed.

Lemma equiv_under_trans_lt x a y :
  equiv_under cmp x a = true -> cmp y a = true -> equiv_under cmp x y = false.
Proof.
  unfold equiv_under. intros Hxa Hya.
  apply andb_true_iff in Hxa as [Hxa Hax].
  apply negb_true_iff in Hxa, Hax.
  destruct (cmp y x) eqn:Hyx; [now rewrite andb_false_r |].
  rewrite (swo_negtrans cmp cmp_swo y x a Hyx Hxa) in Hya. discriminate.
Qed.

Lemma insert_sorted_filter x a l :
  List.filter (equiv_under cmp x) (insert_sorted cmp a l)
  = List.filter (equiv_under cmp x) (a :: l).
Proof.
  induction l as [| y l IH]; cbn [insert_sorted]; [reflexivity |].
  destruct (cmp y a) eqn:Hya; [| reflexivity].
  cbn [List.filter] in IH |- *. rewrite IH.
  destruct (equiv_under cmp x a) eqn:Hxa; [| reflexivity].
  now rewrite (equiv_under_trans_lt x a y Hxa Hya).
Qed.

Lemma insertion_sort_filter x l :
  List.filter (equiv_under cmp x) (insertion_sort A cmp l)
  = List.filter (equiv_under cmp x) l.
Proof.
  unfold insertion_sort. induction l as [| a l IH]; cbn [foldr]; [reflexivity |].
  rewrite insert_sorted_filter. cbn [List.filter]. now rewrite IH.
Qed.

End InsertionSort.

Lemma insertion_sort_contract : std_sort_contract insertion_sort.
Proof.
  split; intros A cmp l Hswo.
  - now apply insertion_sort_perm.
  - now apply insertion_sort_sorted.
Qed.

Lemma insertion_sort_keeps_equivalent_order : keeps_equivalent_order insertion_sort.
Proof. intros A cmp l x Hswo. now apply insertion_sort_filter. Qed.

Lemma backward_insertion_sort_contract : std_sort_contract backward_insertion_sort.
Proof.
  split; intros A cmp l Hswo; unfold backward_insertion_sort.
  - rewrite insertion_sort_perm. symmetry. apply Permutation_rev.
  - now apply insertion_sort_sorted.
Qed.

Lemma EdgeDist_less_swo : strict_weak_order EdgeDist_less.
Proof.
  split; unfold EdgeDist_less.
  - intros x y H. apply Z.ltb_lt in H. apply Z.ltb_ge. lia.
  - intros x y z Hxy Hyz. apply Z.ltb_ge in Hxy, Hyz. apply Z.ltb_ge. lia.
Qed.

(** What the caller of [std::sort] can rely on for the front element. *)
Lemma sorted_front (sort : sort_fun) (levDists : list EdgeDist) :
  std_sort_contract sort ->
  levDists <> [] ->
  exists best rest,
    sort EdgeDist EdgeDist_less levDists = best :: rest /\
    best ∈ levDists /\
    forall p, p ∈ levDists -> best.2 <= p.2.
Proof.
  intros [Hperm Hsorted] Hne.
  specialize (Hperm _ _ levDists EdgeDist_less_swo).
  specialize (Hsorted _ _ levDists EdgeDist_less_swo).
  destruct (sort EdgeDist EdgeDist_less levDists) as [| best rest] eqn:Hs.
  { apply Permutation_nil in Hperm. contradiction. }
  exists best, rest. split; [reflexivity |]. split.
  - rewrite <- Hperm. apply elem_of_cons. now left.
  - intros p Hp. rewrite <- Hperm in Hp.
    apply elem_of_cons in Hp as [-> | Hp]; [lia |].
    apply StronglySorted_inv in Hsorted as [_ Hall].
    rewrite Forall_forall in Hall. specialize (Hall p).
    unfold EdgeDist_less in Hall.
    apply Hall in Hp. apply Z.ltb_ge in Hp. lia.
Qed.

(** ** Scoring the outgoing edges *)

Lemma keyword_loop_spec (edge : GraphEdge) (message : std_string) :
  forall keywords levDists,
    keyword_loop edge keywords message levDists
    = ds ← mapM (fun keyword => ComputeLevenshteinDistance keyword message) keywords;
      Some (levDists ++ map (pair edge) ds).
Proof.
  induction keywords as [| keyword keywords IH]; intros levDists.
  - cbn. now rewrite app_nil_r.
  - cbn [keyword_loop mapM].
    destruct (ComputeLevenshteinDistance keyword message) as [d |];
      [| reflexivity].
    cbn [mbind option_bind]. rewrite IH.
    destruct (mapM _ keywords) as [ds |]; [| reflexivity].
    cbn. now rewrite <- app_assoc.
Qed.

Lemma edge_loop_spec (node : GraphNode) (message : std_string) :
  fits_size_t (_childEdges node) ->
  forall steps k levDists,
    (k + steps = length (_childEdges node))%nat ->
    edge_loop steps (Z.of_nat k) node message levDists
    = blocks ← mapM (edge_pairs message) (drop k (_childEdges node));
      Some (levDists ++ concat blocks).
Proof.
  intros Hfit. induction steps as [| steps IH]; intros k levDists Hk.
  - rewrite drop_ge by lia. cbn. now rewrite app_nil_r.
  - destruct (lookup_lt_is_Some_2 (_childEdges node) k) as [edge Hedge]; [lia |].
    rewrite (drop_S _ _ _ Hedge). cbn [edge_loop mapM].
    unfold GetChildEdgeAtIndex. rewrite Nat2Z.id, Hedge.
    cbn [mbind option_bind]. rewrite keyword_loop_spec.
    change (edge_pairs message edge)
      with (ds ← mapM (fun keyword => ComputeLevenshteinDistance keyword message)
                      (GetKeywords edge);
            Some (map (pair edge) ds)).
    destruct (mapM _ (GetKeywords edge)) as [ds |]; [| reflexivity].
    cbn [mbind option_bind].
    rewrite size_t_succ by (unfold fits_size_t in Hfit; lia).
    rewrite (IH (S k)) by lia.
    destruct (mapM _ (drop (S k) (_childEdges node))) as [blocks |];
      [| reflexivity].
    cbn. now rewrite <- app_assoc.
Qed.

Lemma collect_levDists_spec (node : GraphNode) (message : std_string) :
  fits_size_t (_childEdges node) ->
  collect_levDists node message
  = blocks ← mapM (edge_pairs message) (_childEdges node);
    Some (concat blocks).
Proof.
  intros Hfit. unfold collect_levDists, GetNumberOfChildEdges.
  rewrite (size_fits _ Hfit), Nat2Z.id.
  change 0 with (Z.of_nat 0).
  rewrite (edge_loop_spec node message Hfit _ 0 []) by lia.
  rewrite drop_0. reflexivity.
Qed.

(** The pairs of one edge: as many as it has keywords, each made of the
    edge and the distance of one keyword. *)
Lemma edge_pairs_spec (message : std_string) (edge : GraphEdge) :
  fits_size_t message ->
  Forall fits_size_t (GetKeywords edge) ->
  exists block,
    edge_pairs message edge = Some block /\ block_of message edge block.
Proof.
  intros Hmsg Hkw. unfold edge_pairs, block_of.
  induction Hkw as [| keyword keywords Hk _ IH].
  - exists []. cbn. repeat split. constructor.
  - destruct IH as (block & Hblock & Hlen & Hall).
    destruct (ComputeLevenshteinDistance_total keyword message Hk Hmsg)
      as [d Hd].
    cbn [mapM]. rewrite Hd. cbn [mbind option_bind].
    destruct (mapM _ keywords) as [ds |]; [| discriminate].
    cbn in Hblock |- *. injection Hblock as <-.
    exists ((edge, d) :: map (pair edge) ds). split; [reflexivity |].
    split; [cbn [length]; now rewrite Hlen |].
    constructor; [split; [reflexivity | exact Hd] | exact Hall].
Qed.

Lemma mapM_edge_pairs_spec (message : std_string) (edges : list GraphEdge) :
  fits_size_t message ->
  Forall (fun e => Forall fits_size_t (_keywords e)) edges ->
  exists blocks,
    mapM (edge_pairs message) edges = Some blocks /\
    Forall2 (block_of message) edges blocks.
Proof.
  intros Hmsg Hedges. induction Hedges as [| edge edges He _ IH].
  - exists []. split; [reflexivity | constructor].
  - destruct IH as (blocks & Hblocks & Hall).
    destruct (edge_pairs_spec message edge Hmsg He) as (block & Hb & Hf).
    exists (block :: blocks). cbn [mapM]. rewrite Hb, Hblocks.
    split; [reflexivity |]. constructor; auto.
Qed.

(** C6. Scoring gives one block of pairs per outgoing edge, in the order
    of the edges; the block of an edge with K keywords has K pairs, the
    pair of a keyword holding the edge and the distance between that
    keyword and the message; an edge without keyword gives an empty
    block. *)
Theorem collect_levDists_one_pair_per_keyword
    (node : GraphNode) (message : std_string) :
  representable_node node ->
  fits_size_t message ->
  exists blocks,
    collect_levDists node message = Some (concat blocks) /\
    Forall2 (block_of message) (_childEdges node) blocks /\
    Forall2 (fun edge block => GetKeywords edge = [] -> block = [])
            (_childEdges node) blocks.
Proof.
  intros (Hedges & Hkeywords & _) Hmsg.
  destruct (mapM_edge_pairs_spec message _ Hmsg Hkeywords) as (blocks & Hb & Hall).
  exists blocks. split; [| split; [exact Hall |]].
  - rewrite collect_levDists_spec by assumption. now rewrite Hb.
  - eapply Forall2_impl; [exact Hall |].
    intros edge block [Hlen _] Hnil. rewrite Hnil in Hlen.
    now apply length_zero_iff_nil.
Qed.

Lemma collect_levDists_one_pair_per_keyword_witness :
  exists blocks,
    collect_levDists node_root (str "joke") = Some (concat blocks) /\
    Forall2 (block_of (str "joke")) (_childEdges node_root) blocks /\
    Forall2 (fun edge block => GetKeywords edge = [] -> block = [])
            (_childEdges node_root) blocks.
Proof.
  apply (collect_levDists_one_pair_per_keyword node_root (str "joke")).
  - unfold representable_node, fits_size_t.
    split; [| split]; [reflexivity | | reflexivity].
    repeat constructor.
  - reflexivity.
Defined.

Example collect_levDists_demo :
  collect_levDists node_root (str "joke")
  = Some [(edge_weather, 6); (edge_joke, 0); (edge_joke, 5)].
Proof. vm_compute. reflexivity. Qed.

Lemma collected_length (message : std_string) edges blocks :
  Forall2 (block_of message) edges blocks ->
  length (concat blocks) = length (concat (map _keywords edges)).
Proof.
  induction 1 as [| edge block es bs [Hlen _] _ IH]; [reflexivity |].
  cbn [concat map]. rewrite !length_app, IH, Hlen. reflexivity.
Qed.

(** Every collected pair comes from a keyword of an outgoing edge. *)
Lemma collected_sound (message : std_string) edges blocks p :
  Forall2 (block_of message) edges blocks ->
  p ∈ concat blocks ->
  exists keyword,
    p.1 ∈ edges /\ keyword ∈ GetKeywords p.1 /\
    ComputeLevenshteinDistance keyword message = Some p.2.
Proof.
  induction 1 as [| edge block es bs [_ Hblock] _ IH]; cbn [concat].
  - intros H. inversion H.
  - intros H. apply elem_of_app in H as [H | H].
    + apply list_elem_of_lookup in H as [i Hi].
      destruct (Forall2_lookup_r _ _ _ _ _ Hblock Hi) as (keyword & Hk & <- & Hd).
      exists keyword. split; [apply elem_of_cons; now left |].
      split; [| exact Hd]. apply list_elem_of_lookup. eauto.
    + destruct (IH H) as (keyword & He & Hk & Hd).
      exists keyword. split; [apply elem_of_cons; now right | auto].
Qed.

(** Every keyword of every outgoing edge has its pair. *)
Lemma collected_complete (message : std_string) edges blocks edge keyword d :
  Forall2 (block_of message) edges blocks ->
  edge ∈ edges -> keyword ∈ GetKeywords edge ->
  ComputeLevenshteinDistance keyword message = Some d ->
  (edge, d) ∈ concat blocks.
Proof.
  intros Hall He Hk Hd.
  induction Hall as [| e block es bs [_ Hblock] _ IH]; cbn [concat].
  - inversion He.
  - apply elem_of_app. apply elem_of_cons in He as [-> | He].
    + left. apply list_elem_of_lookup in Hk as [i Hi].
      destruct (Forall2_lookup_l _ _ _ _ _ Hblock Hi) as (p & Hp & He & Hd').
      apply list_elem_of_lookup. exists i. rewrite Hp. f_equal.
      destruct p as [e' d']. cbn in He, Hd'. subst e'.
      rewrite Hd in Hd'. now injection Hd' as <-.
    + right. now apply IH.
Qed.

(** ** ChatBot::ReceiveMessageFromUser: choice of the next node *)

Lemma select_newNode_unfold (sort : sort_fun) (w : World) (a : nat)
    (node : GraphNode) (message : std_string) (levDists : list EdgeDist) :
  _currentNode (chatbot w) = Addr a ->
  nodes w !! a = Some node ->
  collect_levDists node message = Some levDists ->
  select_newNode sort message w
  = if 0 <? size levDists
    then (best ← vector_at (sort EdgeDist EdgeDist_less levDists) 0;
          mret (GetChildNode best.1)) w
    else Done (_rootNode (chatbot w)) w.
Proof.
  intros Hcur Hnode Hcollect. unfold select_newNode. run_M.
  unfold deref_node. rewrite Hcur, Hnode, Hcollect. run_M.
  destruct (0 <? size levDists); reflexivity.
Qed.

Lemma select_newNode_best (sort : sort_fun) (w : World) (a : nat)
    (node : GraphNode) (message : std_string) (levDists : list EdgeDist) :
  std_sort_contract sort ->
  _currentNode (chatbot w) = Addr a ->
  nodes w !! a = Some node ->
  collect_levDists node message = Some levDists ->
  fits_size_t levDists ->
  levDists <> [] ->
  exists best rest,
    sort EdgeDist EdgeDist_less levDists = best :: rest /\
    best ∈ levDists /\
    (forall p, p ∈ levDists -> best.2 <= p.2) /\
    select_newNode sort message w = Done (GetChildNode best.1) w.
Proof.
  intros Hsort Hcur Hnode Hcollect Hfit Hne.
  destruct (sorted_front sort levDists Hsort Hne) as (best & rest & Hs & Hin & Hmin).
  exists best, rest. repeat (split; [assumption |]).
  rewrite (select_newNode_unfold sort w a node message levDists) by assumption.
  assert (Hlen : length (sort EdgeDist EdgeDist_less levDists) = length levDists).
  { apply Permutation_length, (sort_perm sort Hsort), EdgeDist_less_swo. }
  rewrite (size_fits _ Hfit).
  destruct levDists as [| p l]; [contradiction |].
  destruct (Z.ltb_spec 0 (Z.of_nat (length (p :: l)))) as [_ | Hle];
    [| cbn [length] in Hle; lia].
  destruct (vector_at_in_range (sort EdgeDist EdgeDist_less (p :: l)) 0 w)
    as (x & Hat & Hx).
  { rewrite Hlen. cbn [length]. lia. }
  { unfold fits_size_t in *. now rewrite Hlen. }
  run_M. rewrite Hat. rewrite Hs in Hx. cbn in Hx. now injection Hx as <-.
Qed.

(** Under the sizes a program can hold, scoring succeeds, and the
    collected pairs are exactly those of the keywords of the edges. *)
Lemma collect_levDists_pairs (node : GraphNode) (message : std_string) :
  representable_node node ->
  fits_size_t message ->
  exists levDists,
    collect_levDists node message = Some levDists /\
    fits_size_t levDists /\
    (forall p, p ∈ levDists ->
       exists keyword,
         p.1 ∈ _childEdges node /\ keyword ∈ GetKeywords p.1 /\
         ComputeLevenshteinDistance keyword message = Some p.2) /\
    (forall edge keyword,
       edge ∈ _childEdges node -> keyword ∈ GetKeywords edge ->
       exists d,
         ComputeLevenshteinDistance keyword message = Some d /\
         (edge, d) ∈ levDists).
Proof.
  intros Hnode Hmsg.
  destruct Hnode as (Hedges & Hkeywords & Htotal).
  destruct (mapM_edge_pairs_spec message _ Hmsg Hkeywords)
    as (blocks & Hmap & Hblocks).
  assert (Hcollect : collect_levDists node message = Some (concat blocks)).
  { rewrite collect_levDists_spec by assumption. now rewrite Hmap. }
  exists (concat blocks). split; [exact Hcollect |]. split; [| split].
  - unfold fits_size_t in *.
    now rewrite (collected_length message _ _ Hblocks).
  - intros p Hp. eapply collected_sound; eauto.
  - intros edge keyword He Hk.
    assert (Hfit : fits_size_t keyword).
    { rewrite Forall_forall in Hkeywords. specialize (Hkeywords edge He).
      rewrite Forall_forall in Hkeywords. now apply Hkeywords. }
    destruct (ComputeLevenshteinDistance_total keyword message Hfit Hmsg)
      as [d Hd].
    exists d. split; [exact Hd |]. eapply collected_complete; eauto.
Qed.

(** Whenever the current node has an outgoing edge with a keyword, the
    node chosen is the child node of an edge one of whose keywords is at
    the least distance of the message among all keywords of all outgoing
    edges. *)
Lemma select_newNode_least (sort : sort_fun) (w : World) (a : nat)
    (node : GraphNode) (message : std_string) :
  std_sort_contract sort ->
  _currentNode (chatbot w) = Addr a ->
  nodes w !! a = Some node ->
  representable_node node ->
  fits_size_t message ->
  (exists edge, edge ∈ _childEdges node /\ GetKeywords edge <> []) ->
  exists edge keyword d,
    edge ∈ _childEdges node /\
    keyword ∈ GetKeywords edge /\
    ComputeLevenshteinDistance keyword message = Some d /\
    (forall edge' keyword' d',
       edge' ∈ _childEdges node -> keyword' ∈ GetKeywords edge' ->
       ComputeLevenshteinDistance keyword' message = Some d' -> d <= d') /\
    select_newNode sort message w = Done (GetChildNode edge) w.
Proof.
  intros Hsort Hcur Hnode Hrep Hmsg (edge0 & He0 & Hk0).
  destruct (collect_levDists_pairs node message Hrep Hmsg)
    as (levDists & Hcollect & Hfit & Hsound & Hcomplete).
  assert (Hne : levDists <> []).
  { destruct (GetKeywords edge0) as [| keyword0 ks] eqn:Hks; [contradiction |].
    destruct (Hcomplete edge0 keyword0 He0) as (d0 & _ & Hin).
    { rewrite Hks. apply elem_of_cons. now left. }
    intros ->. inversion Hin. }
  destruct (select_newNode_best sort w a node message levDists
              Hsort Hcur Hnode Hcollect Hfit Hne)
    as (best & rest & _ & Hin & Hmin & Hsel).
  destruct (Hsound best Hin) as (keyword & He & Hk & Hd).
  exists best.1, keyword, best.2. repeat (split; [assumption |]).
  split; [| exact Hsel].
  intros edge' keyword' d' He' Hk' Hd'.
  destruct (Hcomplete edge' keyword' He' Hk') as (d'' & Hd'' & Hin').
  rewrite Hd' in Hd''. injection Hd'' as <-.
  apply (Hmin (edge', d') Hin').
Qed.

Lemma demo_root_representable : representable_node node_root.
Proof.
  unfold representable_node, fits_size_t.
  split; [| split]; [reflexivity | | reflexivity]. repeat constructor.
Qed.

Example select_newNode_far_message :
  select_newNode insertion_sort (str "xyz123") (demo_world_at (Addr 0))
  = Done (Addr 2) (demo_world_at (Addr 0)).
Proof. vm_compute. reflexivity. Qed.



(** ** Equal least distances *)

Lemma tied_at_equiv (best : EdgeDist) (levDists : list EdgeDist) :
  tied_at best.2 levDists
  = List.filter (equiv_under EdgeDist_less best) levDists.
Proof.
  unfold tied_at. apply List.filter_ext. intros p.
  unfold equiv_under, EdgeDist_less.
  destruct (Z.eqb_spec p.2 best.2), (Z.ltb_spec best.2 p.2),
    (Z.ltb_spec p.2 best.2); try lia; reflexivity.
Qed.

Lemma elem_of_tied_at (p : EdgeDist) (d : Z) (levDists : list EdgeDist) :
  p ∈ tied_at d levDists <-> p ∈ levDists /\ p.2 = d.
Proof.
  unfold tied_at. rewrite !list_elem_of_In, List.filter_In, Z.eqb_eq.
  reflexivity.
Qed.

(** C2, as amended. When several collected pairs share the least
    distance, the pair that wins is one of them, and the next node is the
    child node of its edge; it is the pair enumerated first among them
    whenever the sort keeps equivalent elements in their order, which
    [std::sort] does not promise. *)
Theorem select_newNode_among_tied (sort : sort_fun) (w : World) (a : nat)
    (node : GraphNode) (message : std_string) :
  std_sort_contract sort ->
  _currentNode (chatbot w) = Addr a ->
  nodes w !! a = Some node ->
  representable_node node ->
  fits_size_t message ->
  (exists edge, edge ∈ _childEdges node /\ GetKeywords edge <> []) ->
  exists levDists d best,
    collect_levDists node message = Some levDists /\
    least_distance levDists d /\
    best ∈ tied_at d levDists /\
    select_newNode sort message w = Done (GetChildNode best.1) w /\
    (keeps_equivalent_order sort -> head (tied_at d levDists) = Some best).
Proof.
  intros Hsort Hcur Hnode Hrep Hmsg (edge0 & He0 & Hk0).
  destruct (collect_levDists_pairs node message Hrep Hmsg)
    as (levDists & Hcollect & Hfit & _ & Hcomplete).
  assert (Hne : levDists <> []).
  { destruct (GetKeywords edge0) as [| keyword0 ks] eqn:Hks; [contradiction |].
    destruct (Hcomplete edge0 keyword0 He0) as (d0 & _ & Hin).
    { rewrite Hks. apply elem_of_cons. now left. }
    intros ->. inversion Hin. }
  destruct (select_newNode_best sort w a node message levDists
              Hsort Hcur Hnode Hcollect Hfit Hne)
    as (best & rest & Hsorted & Hin & Hmin & Hsel).
  exists levDists, best.2, best. split; [exact Hcollect |].
  split; [| split; [| split]].
  - split; [| exact Hmin]. exists best.1. now destruct best.
  - apply elem_of_tied_at. auto.
  - exact Hsel.
  - intros Hstable. rewrite tied_at_equiv.
    rewrite <- (Hstable _ EdgeDist_less levDists best EdgeDist_less_swo).
    rewrite Hsorted. cbn [List.filter].
    assert (equiv_under EdgeDist_less best best = true) as ->; [| reflexivity].
    unfold equiv_under, EdgeDist_less. rewrite Z.ltb_irrefl. reflexivity.
Qed.

Lemma demo_tie_representable : representable_node node_tie.
Proof.
  unfold representable_node, fits_size_t.
  split; [| split]; [reflexivity | | reflexivity]. repeat constructor.
Qed.

Lemma select_newNode_among_tied_witness :
  exists levDists d best,
    collect_levDists node_tie (str "x") = Some levDists /\
    least_distance levDists d /\
    best ∈ tied_at d levDists /\
    select_newNode insertion_sort (str "x") (demo_world_at (Addr 4))
    = Done (GetChildNode best.1) (demo_world_at (Addr 4)) /\
    (keeps_equivalent_order insertion_sort ->
     head (tied_at d levDists) = Some best).
Proof.
  apply (select_newNode_among_tied insertion_sort
           (demo_world_at (Addr 4)) 4 node_tie (str "x")).
  - exact insertion_sort_contract.
  - reflexivity.
  - reflexivity.
  - exact demo_tie_representable.
  - reflexivity.
  - exists edge_a. split; [| discriminate].
    apply elem_of_cons. now left.
Defined.

(** The pair enumerated first does not always win a tie. With the
    [std::sort] of libstdc++ and seventeen pairs at distance 1, the ninth
    edge wins; and with a sort that meets the contract of [std::sort], two
    pairs at distance 1 are enough for the second edge to win. *)
Lemma select_newNode_tie_first_does_not_win :
  (collect_levDists crossroads_node (str "z")
   = Some (map (fun edge => (edge, 1)) (_childEdges crossroads_node)) /\
   is_Some (Libstdcxx.__sort EdgeDist_less
              (map (fun edge => (edge, 1)) (_childEdges crossroads_node))) /\
   select_newNode libstdcxx_sort (str "z") crossroads_world
   = Done (Addr 108) crossroads_world /\
   GetChildNode <$> head (_childEdges crossroads_node) = Some (Addr 100)) /\
  (std_sort_contract backward_insertion_sort /\
   collect_levDists node_tie (str "x") = Some [(edge_a, 1); (edge_b, 1)] /\
   select_newNode backward_insertion_sort (str "x") (demo_world_at (Addr 4))
   = Done (GetChildNode edge_b) (demo_world_at (Addr 4)) /\
   GetChildNode edge_b <> GetChildNode edge_a).
Proof.
  split.
  - split; [vm_compute; reflexivity |].
    split; [vm_compute; eauto |].
    split; vm_compute; reflexivity.
  - split; [exact backward_insertion_sort_contract |].
    split; [vm_compute; reflexivity |].
    split; [vm_compute; reflexivity | discriminate].
Qed.

(** With a sort that keeps equivalent elements in order the first wins. *)
Example select_newNode_tie_first_wins :
  select_newNode insertion_sort (str "x") (demo_world_at (Addr 4))
  = Done (GetChildNode edge_a) (demo_world_at (Addr 4)).
Proof. vm_compute. reflexivity. Qed.

(** Where the recursion of the introsort gets too deep (here after ten
    partitions of forty pairs) the sort goes on with heap sort: the pairs
    come out sorted, equal distances in the order libstdc++ leaves them
    in. *)
Example libstdcxx_sort_deep_recursion :
  map fst <$> Libstdcxx.__sort by_distance deep_recursion_input
  = Some [1; 20; 3; 21; 5; 22; 7; 23; 9; 24; 11; 25; 13; 26; 15; 27; 17; 28;
          19; 29; 18; 37; 35; 38; 36; 33; 31; 34; 39; 32; 14; 30; 6; 10; 16;
          4; 2; 8; 0; 12]%nat /\
  map snd (libstdcxx_sort _ by_distance deep_recursion_input)
  = [0; 0; 1; 1; 2; 2; 3; 3; 4; 4; 5; 5; 6; 6; 7; 7; 8; 8; 9; 9; 10; 10;
     11; 11; 12; 12; 13; 13; 14; 14; 15; 15; 16; 16; 17; 17; 18; 18; 19; 19].
Proof. split; vm_compute; reflexivity. Qed.

(** ** Determinism of the choice *)

Lemma select_newNode_agree (sort : sort_fun) (message : std_string)
    (w1 w2 : World) :
  nodes w1 = nodes w2 ->
  _currentNode (chatbot w1) = _currentNode (chatbot w2) ->
  _rootNode (chatbot w1) = _rootNode (chatbot w2) ->
  result_of (select_newNode sort message w1)
  = result_of (select_newNode sort message w2).
Proof.
  intros Hnodes Hcur Hroot. unfold select_newNode. run_M.
  unfold deref_node. rewrite Hnodes, Hcur, Hroot.
  destruct (_currentNode (chatbot w2)) as [| a]; [reflexivity |].
  destruct (nodes w2 !! a) as [node |]; [| reflexivity].
  destruct (collect_levDists node message) as [levDists |]; [| reflexivity].
  run_M. destruct (0 <? size levDists); [| reflexivity].
  unfold vector_at.
  destruct (size_t_wrap 0 <? size (sort EdgeDist EdgeDist_less levDists));
    [| reflexivity].
  destruct (sort EdgeDist EdgeDist_less levDists !! Z.to_nat (size_t_wrap 0));
    reflexivity.
Qed.

(** When [SetCurrentNode] is over the current node is its argument,
    whatever was drawn. *)
Lemma SetCurrentNode_current dis node w w' :
  final_state (SetCurrentNode dis node w) = Some w' ->
  _currentNode (chatbot w') = node.
Proof.
  unfold SetCurrentNode. run_M. unfold deref_node. cbn [nodes].
  destruct node as [| a]; [discriminate |].
  destruct (nodes w !! a) as [n |]; [| discriminate].
  unfold uniform_int_distribution.
  destruct (0 <=? to_int (size_t_sub (size (GetAnswers n)) 1)); [| discriminate].
  run_M. unfold vector_at.
  destruct (_ <? _); [| cbn; intros [= <-]; reflexivity].
  destruct (GetAnswers n !! _); [| discriminate].
  run_M. unfold SendMessageToUser.
  destruct (_chatLogic (chatbot w));
    [discriminate | cbn; intros [= <-]; reflexivity].
Qed.

(** C5. The node chosen for the move is a function of the message, of the
    current node, of the root node and of the graph: two states that agree
    on these give the same choice, whatever the clock that seeds the
    random generator, the texts sent so far and the other handles; and the
    draw made on arrival decides the text only, the node arrived at being
    the one chosen. *)
Theorem select_newNode_deterministic (sort : sort_fun) (message : std_string)
    (w1 w2 : World) :
  nodes w1 = nodes w2 ->
  _currentNode (chatbot w1) = _currentNode (chatbot w2) ->
  _rootNode (chatbot w1) = _rootNode (chatbot w2) ->
  result_of (select_newNode sort message w1)
  = result_of (select_newNode sort message w2) /\
  forall (dis1 dis2 : draw_fun) (newNode : ptr) (w1' w2' : World),
    final_state (SetCurrentNode dis1 newNode w1) = Some w1' ->
    final_state (SetCurrentNode dis2 newNode w2) = Some w2' ->
    _currentNode (chatbot w1') = newNode /\
    _currentNode (chatbot w2') = newNode.
Proof.
  intros Hnodes Hcur Hroot. split.
  - now apply select_newNode_agree.
  - intros dis1 dis2 newNode w1' w2' H1 H2.
    split; eapply SetCurrentNode_current; eassumption.
Qed.

Lemma select_newNode_deterministic_witness :
  result_of (select_newNode insertion_sort (str "joke") (demo_world_at (Addr 0)))
  = result_of (select_newNode insertion_sort (str "joke") demo_world_elsewhere) /\
  forall (dis1 dis2 : draw_fun) (newNode : ptr) (w1' w2' : World),
    final_state (SetCurrentNode dis1 newNode (demo_world_at (Addr 0))) = Some w1' ->
    final_state (SetCurrentNode dis2 newNode demo_world_elsewhere) = Some w2' ->
    _currentNode (chatbot w1') = newNode /\
    _currentNode (chatbot w2') = newNode.
Proof.
  apply (select_newNode_deterministic insertion_sort (str "joke")
           (demo_world_at (Addr 0)) demo_world_elsewhere); reflexivity.
Defined.

(** The choice leaves the state as it is. *)
Lemma select_newNode_pure (sort : sort_fun) (message : std_string) (w w' : World) :
  final_state (select_newNode sort message w) = Some w' -> w' = w.
Proof.
  unfold select_newNode. run_M. unfold deref_node.
  destruct (_currentNode (chatbot w)) as [| a]; [discriminate |].
  destruct (nodes w !! a) as [node |]; [| discriminate].
  destruct (collect_levDists node message) as [levDists |]; [| discriminate].
  run_M. destruct (0 <? size levDists); [| cbn; congruence].
  unfold vector_at.
  destruct (size_t_wrap 0 <? size (sort EdgeDist EdgeDist_less levDists));
    [| cbn; congruence].
  destruct (sort EdgeDist EdgeDist_less levDists !! Z.to_nat (size_t_wrap 0));
    cbn; congruence.
Qed.

(** ** What a turn changes *)

Lemma same_frame_refl w : same_frame w w.
Proof. repeat split. Qed.

Lemma same_frame_trans w1 w2 w3 :
  same_frame w1 w2 -> same_frame w2 w3 -> same_frame w1 w3.
Proof.
  intros (H1 & H2 & H3 & H4) (K1 & K2 & K3 & K4).
  repeat split; congruence.
Qed.

Lemma keeps_frame_bind {A B} (m : M A) (f : A -> M B) :
  keeps_frame m -> (forall a, keeps_frame (f a)) -> keeps_frame (m ≫= f).
Proof.
  intros Hm Hf w w' H. unfold mbind, M_bind in H.
  specialize (Hm w). destruct (m w) as [x w1 | e w1 |]; cbn in *.
  - eapply same_frame_trans; [apply Hm; reflexivity | now apply (Hf x)].
  - now apply Hm.
  - discriminate.
Qed.

Lemma keeps_frame_ret {A} (a : A) : keeps_frame (mret a).
Proof. intros w w' [= <-]. apply same_frame_refl. Qed.

Lemma keeps_frame_get_chatbot : keeps_frame get_chatbot.
Proof. intros w w' [= <-]. apply same_frame_refl. Qed.

Lemma keeps_frame_get_clock : keeps_frame get_clock.
Proof. intros w w' [= <-]. apply same_frame_refl. Qed.

Lemma keeps_frame_or_undefined {A} (o : option A) : keeps_frame (or_undefined o).
Proof.
  intros w w'. destruct o; cbn; [intros [= <-] | discriminate].
  apply same_frame_refl.
Qed.

Lemma keeps_frame_deref_node p : keeps_frame (deref_node p).
Proof.
  intros w w'. unfold deref_node. destruct p as [| a]; [discriminate |].
  destruct (nodes w !! a); [intros [= <-] | discriminate].
  apply same_frame_refl.
Qed.

Lemma keeps_frame_assign_currentNode p : keeps_frame (assign_currentNode p).
Proof. intros w w' [= <-]. repeat split. Qed.

Lemma keeps_frame_vector_at {A} (v : list A) idx : keeps_frame (vector_at v idx).
Proof.
  unfold vector_at. destruct (size_t_wrap idx <? size v).
  - apply keeps_frame_or_undefined.
  - intros w w' [= <-]. apply same_frame_refl.
Qed.

Lemma keeps_frame_uniform_int_distribution dis seed a b :
  keeps_frame (uniform_int_distribution dis seed a b).
Proof.
  unfold uniform_int_distribution. destruct (a <=? b).
  - apply keeps_frame_ret.
  - intros w w'. discriminate.
Qed.

Lemma keeps_frame_SendMessageToUser chatLogic text :
  keeps_frame (SendMessageToUser chatLogic text).
Proof.
  intros w w'. unfold SendMessageToUser.
  destruct chatLogic; [discriminate | intros [= <-]]. repeat split.
Qed.

Create HintDb frame.

#[local] Hint Resolve keeps_frame_ret keeps_frame_get_chatbot
  keeps_frame_get_clock keeps_frame_or_undefined keeps_frame_deref_node
  keeps_frame_assign_currentNode keeps_frame_vector_at
  keeps_frame_uniform_int_distribution keeps_frame_SendMessageToUser
  : frame.

Ltac frame_step :=
  repeat (first [ apply keeps_frame_bind; [| intros ?] | solve [auto with frame] ]).

Lemma keeps_frame_SetCurrentNode dis node : keeps_frame (SetCurrentNode dis node).
Proof. unfold SetCurrentNode. frame_step. Qed.

Lemma keeps_frame_select_newNode sort message :
  keeps_frame (select_newNode sort message).
Proof.
  unfold select_newNode. frame_step.
  destruct (0 <? size _); frame_step.
Qed.

Lemma keeps_frame_ReceiveMessageFromUser sort dis message :
  keeps_frame (ReceiveMessageFromUser sort dis message).
Proof.
  unfold ReceiveMessageFromUser, MoveChatbotToNewNode.
  apply keeps_frame_bind; [apply keeps_frame_select_newNode |].
  intros newNode. apply keeps_frame_SetCurrentNode.
Qed.

(** A completed turn is a choice followed by an arrival. *)
Lemma ReceiveMessageFromUser_inv (sort : sort_fun) (dis : draw_fun)
    (message : std_string) (w w' : World) :
  ReceiveMessageFromUser sort dis message w = Done tt w' ->
  exists newNode,
    select_newNode sort message w = Done newNode w /\
    SetCurrentNode dis newNode w = Done tt w' /\
    _currentNode (chatbot w') = newNode.
Proof.
  intros Hdone.
  unfold ReceiveMessageFromUser, MoveChatbotToNewNode in Hdone.
  unfold mbind, M_bind in Hdone.
  destruct (select_newNode sort message w) as [newNode w1 | e w1 |] eqn:Hsel;
    [| discriminate | discriminate].
  assert (w1 = w) as ->.
  { apply (select_newNode_pure sort message). now rewrite Hsel. }
  exists newNode. split; [reflexivity |]. split; [exact Hdone |].
  apply (SetCurrentNode_current dis newNode w). now rewrite Hdone.
Qed.

(** C9. A completed turn changes nothing but the current node of the
    chatbot and the texts handed to the chat logic: the nodes of the graph
    with their edges, keywords and answers, the root node, the image handle
    and the chat-logic handle are what they were; this holds for
    [ReceiveMessageFromUser] and for the [SetCurrentNode] it ends with. *)
Theorem ReceiveMessageFromUser_frame (sort : sort_fun) (dis : draw_fun)
    (message : std_string) (w w' : World) :
  ReceiveMessageFromUser sort dis message w = Done tt w' ->
  (nodes w' = nodes w /\
   _rootNode (chatbot w') = _rootNode (chatbot w) /\
   _image (chatbot w') = _image (chatbot w) /\
   _chatLogic (chatbot w') = _chatLogic (chatbot w)) /\
  exists newNode,
    select_newNode sort message w = Done newNode w /\
    SetCurrentNode dis newNode w = Done tt w' /\
    _currentNode (chatbot w') = newNode.
Proof.
  intros Hdone. split.
  - apply (keeps_frame_ReceiveMessageFromUser sort dis message w w').
    now rewrite Hdone.
  - now apply ReceiveMessageFromUser_inv.
Qed.

Lemma ReceiveMessageFromUser_frame_witness :
  (nodes demo_world_after = nodes (demo_world_at (Addr 0)) /\
   _rootNode (chatbot demo_world_after) = _rootNode (chatbot (demo_world_at (Addr 0))) /\
   _image (chatbot demo_world_after) = _image (chatbot (demo_world_at (Addr 0))) /\
   _chatLogic (chatbot demo_world_after)
   = _chatLogic (chatbot (demo_world_at (Addr 0)))) /\
  exists newNode,
    select_newNode insertion_sort (str "whether") (demo_world_at (Addr 0))
    = Done newNode (demo_world_at (Addr 0)) /\
    SetCurrentNode modular_draw newNode (demo_world_at (Addr 0))
    = Done tt demo_world_after /\
    _currentNode (chatbot demo_world_after) = newNode.
Proof.
  apply (ReceiveMessageFromUser_frame insertion_sort modular_draw (str "whether")).
  vm_compute. reflexivity.
Defined.

(** The current node after a completed turn does not depend on the draw. *)
Lemma ReceiveMessageFromUser_current_independent_of_draw
    (sort : sort_fun) (dis1 dis2 : draw_fun) (message : std_string)
    (w1 w2 w1' w2' : World) :
  nodes w1 = nodes w2 ->
  _currentNode (chatbot w1) = _currentNode (chatbot w2) ->
  _rootNode (chatbot w1) = _rootNode (chatbot w2) ->
  ReceiveMessageFromUser sort dis1 message w1 = Done tt w1' ->
  ReceiveMessageFromUser sort dis2 message w2 = Done tt w2' ->
  _currentNode (chatbot w1') = _currentNode (chatbot w2').
Proof.
  intros Hnodes Hcur Hroot H1 H2.
  apply ReceiveMessageFromUser_inv in H1 as (p1 & Hs1 & _ & <-).
  apply ReceiveMessageFromUser_inv in H2 as (p2 & Hs2 & _ & <-).
  pose proof (select_newNode_agree sort message w1 w2 Hnodes Hcur Hroot)
    as Hdet.
  rewrite Hs1, Hs2 in Hdet. cbn in Hdet. congruence.
Qed.

(** ** The move to the node chosen *)

(** C3. Whenever the current node has an outgoing edge with a keyword, a
    turn is the move to the child node of an edge one of whose keywords is
    at the least distance of the message among all keywords of all
    outgoing edges, for every message, however far from every keyword:
    that node is handed to [MoveChatbotToNewNode]; it is the current node
    when the turn is over; and the turn is over, with one of the answers of
    that node sent, whenever the node can be entered, that is when it has
    at least one and at most 2^31 answers and the chat-logic handle is
    set. *)
Theorem ReceiveMessageFromUser_moves_to_least_distance
    (sort : sort_fun) (dis : draw_fun) (w : World) (a : nat)
    (node : GraphNode) (message : std_string) :
  std_sort_contract sort ->
  uniform_int_contract dis ->
  _currentNode (chatbot w) = Addr a ->
  nodes w !! a = Some node ->
  representable_node node ->
  fits_size_t message ->
  (exists edge, edge ∈ _childEdges node /\ GetKeywords edge <> []) ->
  exists edge keyword d,
    edge ∈ _childEdges node /\
    keyword ∈ GetKeywords edge /\
    ComputeLevenshteinDistance keyword message = Some d /\
    (forall edge' keyword' d',
       edge' ∈ _childEdges node -> keyword' ∈ GetKeywords edge' ->
       ComputeLevenshteinDistance keyword' message = Some d' -> d <= d') /\
    ReceiveMessageFromUser sort dis message w
    = MoveChatbotToNewNode dis (GetChildNode edge) w /\
    (forall w',
       ReceiveMessageFromUser sort dis message w = Done tt w' ->
       _currentNode (chatbot w') = GetChildNode edge) /\
    (forall b c n,
       GetChildNode edge = Addr b ->
       nodes w !! b = Some n ->
       _chatLogic (chatbot w) = Addr c ->
       _answers n <> [] ->
       Z.of_nat (length (_answers n)) <= INT_MAX + 1 ->
       exists answer w',
         ReceiveMessageFromUser sort dis message w = Done tt w' /\
         _currentNode (chatbot w') = Addr b /\
         answer ∈ _answers n /\
         delivered w' = delivered w ++ [answer]).
Proof.
  intros Hsort Hdis Hcur Hnode Hrep Hmsg Hedge.
  destruct (select_newNode_least sort w a node message
              Hsort Hcur Hnode Hrep Hmsg Hedge)
    as (edge & keyword & d & He & Hk & Hd & Hmin & Hsel).
  exists edge, keyword, d. repeat (split; [assumption |]).
  assert (Hhand : ReceiveMessageFromUser sort dis message w
                  = MoveChatbotToNewNode dis (GetChildNode edge) w).
  { unfold ReceiveMessageFromUser. unfold mbind, M_bind. now rewrite Hsel. }
  split; [exact Hhand |]. split.
  - intros w' Hdone. rewrite Hhand in Hdone.
    unfold MoveChatbotToNewNode in Hdone.
    apply (SetCurrentNode_current dis (GetChildNode edge) w).
    now rewrite Hdone.
  - intros b c n Hb Hn Hc Hne Hlen. rewrite Hhand, Hb.
    unfold MoveChatbotToNewNode.
    assert (Hpos : 0 < Z.of_nat (length (_answers n))).
    { destruct (_answers n); [contradiction | cbn [length]; lia]. }
    destruct (SetCurrentNode_run dis w b c n Hdis Hn Hc ltac:(lia))
      as (answer & Hin & Hrun).
    eexists answer, _. split; [exact Hrun |]. cbn. auto.
Qed.

Lemma ReceiveMessageFromUser_moves_to_least_distance_witness :
  exists edge keyword d,
    edge ∈ _childEdges node_root /\
    keyword ∈ GetKeywords edge /\
    ComputeLevenshteinDistance keyword (str "xyz123") = Some d /\
    (forall edge' keyword' d',
       edge' ∈ _childEdges node_root -> keyword' ∈ GetKeywords edge' ->
       ComputeLevenshteinDistance keyword' (str "xyz123") = Some d' ->
       d <= d') /\
    ReceiveMessageFromUser insertion_sort modular_draw (str "xyz123")
      (demo_world_at (Addr 0))
    = MoveChatbotToNewNode modular_draw (GetChildNode edge)
        (demo_world_at (Addr 0)) /\
    (forall w',
       ReceiveMessageFromUser insertion_sort modular_draw (str "xyz123")
         (demo_world_at (Addr 0)) = Done tt w' ->
       _currentNode (chatbot w') = GetChildNode edge) /\
    (forall b c n,
       GetChildNode edge = Addr b ->
       nodes (demo_world_at (Addr 0)) !! b = Some n ->
       _chatLogic (chatbot (demo_world_at (Addr 0))) = Addr c ->
       _answers n <> [] ->
       Z.of_nat (length (_answers n)) <= INT_MAX + 1 ->
       exists answer w',
         ReceiveMessageFromUser insertion_sort modular_draw (str "xyz123")
           (demo_world_at (Addr 0)) = Done tt w' /\
         _currentNode (chatbot w') = Addr b /\
         answer ∈ _answers n /\
         delivered w' = delivered (demo_world_at (Addr 0)) ++ [answer]).
Proof.
  apply (ReceiveMessageFromUser_moves_to_least_distance insertion_sort
           modular_draw (demo_world_at (Addr 0)) 0 node_root (str "xyz123")).
  - exact insertion_sort_contract.
  - exact modular_draw_contract.
  - reflexivity.
  - reflexivity.
  - exact demo_root_representable.
  - reflexivity.
  - exists edge_weather. split; [| discriminate].
    apply elem_of_cons. now left.
Defined.

(** The scenario of the specification: no keyword is close to "xyz123",
    and the chatbot still moves, to the node of the closest one. *)
Example ReceiveMessageFromUser_far_message :
  ReceiveMessageFromUser insertion_sort modular_draw (str "xyz123")
    (demo_world_at (Addr 0))
  = Done tt {| nodes := demo_nodes;
               chatbot := {| _image := Addr 500; _currentNode := Addr 2;
                             _rootNode := Addr 0; _chatLogic := Addr 900 |};
               delivered := [str "Knock knock"];
               clock := 1700000001 |}.
Proof. vm_compute. reflexivity. Qed.

(** ** The conversation goes on *)

(** In a well-formed state every message is answered: the turn completes,
    one answer of the node arrived at is sent, and the state is well formed
    again, ready for the next message. *)
Lemma ReceiveMessageFromUser_completes (sort : sort_fun) (dis : draw_fun)
    (message : std_string) (w : World) :
  std_sort_contract sort ->
  uniform_int_contract dis ->
  fits_size_t message ->
  well_formed w ->
  exists w' b n answer,
    ReceiveMessageFromUser sort dis message w = Done tt w' /\
    _currentNode (chatbot w') = Addr b /\
    nodes w !! b = Some n /\
    answer ∈ _answers n /\
    delivered w' = delivered w ++ [answer] /\
    well_formed w'.
Proof.
  intros Hsort Hdis Hmsg ((c & Hc) & (a & Hcur & [node Hnode]) & Hroot & Hnodes).
  destruct (Hnodes a node Hnode) as (Hrep & _ & _ & Hedges).
  destruct (collect_levDists_pairs node message Hrep Hmsg)
    as (levDists & Hcollect & Hfit & Hsound & _).
  assert (Hsel : exists newNode,
             select_newNode sort message w = Done newNode w /\
             valid_node_ptr w newNode).
  { destruct levDists as [| p l] eqn:Hl.
    - exists (_rootNode (chatbot w)). split; [| exact Hroot].
      now rewrite (select_newNode_unfold sort w a node message [] Hcur Hnode Hcollect).
    - destruct (select_newNode_best sort w a node message (p :: l)
                  Hsort Hcur Hnode Hcollect Hfit ltac:(discriminate))
        as (best & rest & _ & Hin & _ & Hbest).
      exists (GetChildNode best.1). split; [exact Hbest |].
      destruct (Hsound best Hin) as (_ & He & _).
      rewrite Forall_forall in Hedges. now apply Hedges. }
  destruct Hsel as (newNode & Hsel & (b & -> & [n Hn])).
  destruct (Hnodes b n Hn) as (_ & Hne & Hlen & _).
  assert (Hpos : 0 < Z.of_nat (length (_answers n))).
  { destruct (_answers n); [contradiction | cbn [length]; lia]. }
  destruct (SetCurrentNode_run dis w b c n Hdis Hn Hc ltac:(lia))
    as (answer & Hanswer & Hrun).
  eexists _, b, n, answer. split.
  { unfold ReceiveMessageFromUser, MoveChatbotToNewNode.
    unfold mbind, M_bind. rewrite Hsel. exact Hrun. }
  cbn. repeat (split; [first [reflexivity | assumption] |]).
  split; [eauto |]. split; [exists b; eauto |]. split; assumption.
Qed.

(* ================================================================== *)
(** * Further properties *)

(** ** The distance as a metric *)

Section LevMetric.
Context {A : Type} `{EqDecision A}.
Implicit Types (s t u : list A).

Lemma edits_app n m s u t : edits n s u -> edits m u t -> edits (n + m) s t.
Proof.
  induction 1 as [s | n s v u Hstep _ IH]; intros Hrest.
  - exact Hrest.
  - cbn [Nat.add]. econstructor; [exact Hstep | now apply IH].
Qed.

Lemma lev_triangle s u t : (lev s t <= lev s u + lev u t)%nat.
Proof. apply edits_lev_le. eapply edits_app; apply edits_lev. Qed.

Lemma lev_zero_iff s t : lev s t = 0%nat <-> s = t.
Proof.
  split.
  - intros Hz. pose proof (edits_lev s t) as He. rewrite Hz in He.
    now inversion He.
  - intros ->. apply lev_diag.
Qed.

Lemma edit1_length s t :
  edit1 s t -> (length s <= S (length t) /\ length t <= S (length s))%nat.
Proof.
  intros [p c q | p c q | p c d q]; rewrite !length_app; cbn [length]; lia.
Qed.

Lemma edits_length n s t :
  edits n s t -> (length s <= length t + n /\ length t <= length s + n)%nat.
Proof.
  induction 1 as [s | n s u t Hstep _ IH]; [lia |].
  apply edit1_length in Hstep. lia.
Qed.

Lemma lev_ge_length_diff s t :
  (length s <= length t + lev s t /\ length t <= length s + lev s t)%nat.
Proof. apply edits_length, edits_lev. Qed.

End LevMetric.

Lemma toupper_idempotent (c : ascii) : toupper (toupper c) = toupper c.
Proof.
  destruct c as [[] [] [] [] [] [] [] []]; vm_compute; reflexivity.
Qed.

Lemma transform_toupper_idempotent (s : std_string) :
  transform_toupper (transform_toupper s) = transform_toupper s.
Proof.
  unfold transform_toupper. rewrite map_map.
  apply map_ext. intros c. apply toupper_idempotent.
Qed.

(** Within [int] the routine returns the recurrence as it is. *)
Lemma ComputeLevenshteinDistance_small (a b : std_string) :
  fits_int a -> fits_int b ->
  ComputeLevenshteinDistance a b
  = Some (Z.of_nat (lev (transform_toupper a) (transform_toupper b))).
Proof.
  intros Ha Hb.
  rewrite ComputeLevenshteinDistance_value by now apply fits_int_size_t.
  f_equal. apply to_int_small.
  pose proof (lev_le_max (transform_toupper a) (transform_toupper b)) as H.
  unfold transform_toupper in *. rewrite !length_map in H.
  unfold fits_int, INT_MAX in Ha, Hb. unfold INT_MIN, INT_MAX. lia.
Qed.

(** X1. For any two strings a [std::string] can hold, the routine stays
    inside [costs], reads no cell it has not written and returns the least
    number of edits between the upper-cased strings, converted to [int]. *)
Theorem ComputeLevenshteinDistance_memory_safe (a b : std_string) :
  fits_size_t a -> fits_size_t b ->
  exists d : nat,
    is_edit_distance (transform_toupper a) (transform_toupper b) d /\
    ComputeLevenshteinDistance a b = Some (to_int (Z.of_nat d)).
Proof.
  intros Ha Hb. exists (lev (transform_toupper a) (transform_toupper b)).
  split; [apply lev_is_edit_distance |].
  now apply ComputeLevenshteinDistance_value.
Qed.

Lemma ComputeLevenshteinDistance_memory_safe_witness :
  exists d : nat,
    is_edit_distance (transform_toupper (str "weather"))
                     (transform_toupper (str "whether")) d /\
    ComputeLevenshteinDistance (str "weather") (str "whether")
    = Some (to_int (Z.of_nat d)).
Proof.
  apply (ComputeLevenshteinDistance_memory_safe (str "weather") (str "whether"));
    reflexivity.
Defined.

(** X2. The distance is the same in both directions. *)
Theorem ComputeLevenshteinDistance_symmetric (a b : std_string) :
  fits_size_t a -> fits_size_t b ->
  ComputeLevenshteinDistance a b = ComputeLevenshteinDistance b a.
Proof.
  intros Ha Hb. rewrite !ComputeLevenshteinDistance_value by assumption.
  now rewrite lev_sym.
Qed.

Lemma ComputeLevenshteinDistance_symmetric_witness :
  ComputeLevenshteinDistance (str "kitten") (str "sitting")
  = ComputeLevenshteinDistance (str "sitting") (str "kitten").
Proof.
  apply (ComputeLevenshteinDistance_symmetric (str "kitten") (str "sitting"));
    reflexivity.
Defined.

(** X3. The distance is 0 exactly when the two strings are equal once
    upper-cased. *)
Theorem ComputeLevenshteinDistance_zero_iff (a b : std_string) :
  fits_int a -> fits_int b ->
  ComputeLevenshteinDistance a b = Some 0
  <-> transform_toupper a = transform_toupper b.
Proof.
  intros Ha Hb. rewrite ComputeLevenshteinDistance_small by assumption.
  rewrite <- lev_zero_iff. split.
  - intros [= Hz]. lia.
  - intros ->. reflexivity.
Qed.

Lemma ComputeLevenshteinDistance_zero_iff_witness :
  ComputeLevenshteinDistance (str "Joke") (str "jOKE") = Some 0
  <-> transform_toupper (str "Joke") = transform_toupper (str "jOKE").
Proof.
  apply (ComputeLevenshteinDistance_zero_iff (str "Joke") (str "jOKE"));
    unfold fits_int; vm_compute; discriminate.
Defined.

(** X4. Triangle inequality: going through a third string is never
    shorter. *)
Theorem ComputeLevenshteinDistance_triangle (a b c : std_string) :
  fits_int a -> fits_int b -> fits_int c ->
  exists dab dbc dac,
    ComputeLevenshteinDistance a b = Some dab /\
    ComputeLevenshteinDistance b c = Some dbc /\
    ComputeLevenshteinDistance a c = Some dac /\
    dac <= dab + dbc.
Proof.
  intros Ha Hb Hc. eexists _, _, _.
  rewrite !ComputeLevenshteinDistance_small by assumption.
  repeat (split; [reflexivity |]).
  pose proof (lev_triangle (transform_toupper a) (transform_toupper b)
                (transform_toupper c)). lia.
Qed.

Lemma ComputeLevenshteinDistance_triangle_witness :
  exists dab dbc dac,
    ComputeLevenshteinDistance (str "kitten") (str "sitten") = Some dab /\
    ComputeLevenshteinDistance (str "sitten") (str "sitting") = Some dbc /\
    ComputeLevenshteinDistance (str "kitten") (str "sitting") = Some dac /\
    dac <= dab + dbc.
Proof.
  apply (ComputeLevenshteinDistance_triangle
           (str "kitten") (str "sitten") (str "sitting"));
    unfold fits_int; vm_compute; discriminate.
Defined.

(** X5. The distance lies between the difference of the two lengths and
    the greater of the two lengths. *)
Theorem ComputeLevenshteinDistance_bounds (a b : std_string) :
  fits_int a -> fits_int b ->
  exists d,
    ComputeLevenshteinDistance a b = Some d /\
    Z.abs (Z.of_nat (length a) - Z.of_nat (length b)) <= d /\
    d <= Z.max (Z.of_nat (length a)) (Z.of_nat (length b)).
Proof.
  intros Ha Hb. eexists.
  rewrite ComputeLevenshteinDistance_small by assumption.
  split; [reflexivity |].
  pose proof (lev_le_max (transform_toupper a) (transform_toupper b)) as Hmax.
  pose proof (lev_ge_length_diff (transform_toupper a) (transform_toupper b))
    as Hdiff.
  unfold transform_toupper in Hmax, Hdiff. rewrite !length_map in Hmax, Hdiff.
  unfold transform_toupper. lia.
Qed.

Lemma ComputeLevenshteinDistance_bounds_witness :
  exists d,
    ComputeLevenshteinDistance (str "joke") (str "weather") = Some d /\
    Z.abs (Z.of_nat (length (str "joke")) - Z.of_nat (length (str "weather"))) <= d /\
    d <= Z.max (Z.of_nat (length (str "joke"))) (Z.of_nat (length (str "weather"))).
Proof.
  apply (ComputeLevenshteinDistance_bounds (str "joke") (str "weather"));
    unfold fits_int; vm_compute; discriminate.
Defined.

(** X6. Only the upper-cased strings count: replacing an argument by a
    string that differs by case only, or by its upper-cased form, leaves the
    result as it is. *)
Theorem ComputeLevenshteinDistance_case_insensitive (a a' b : std_string) :
  fits_size_t a -> fits_size_t b ->
  transform_toupper a = transform_toupper a' ->
  ComputeLevenshteinDistance a b = ComputeLevenshteinDistance a' b /\
  ComputeLevenshteinDistance b a = ComputeLevenshteinDistance b a' /\
  ComputeLevenshteinDistance a b
  = ComputeLevenshteinDistance (transform_toupper a) (transform_toupper b).
Proof.
  intros Ha Hb Heq.
  assert (Ha' : fits_size_t a').
  { unfold fits_size_t in *. apply (f_equal length) in Heq.
    unfold transform_toupper in Heq. rewrite !length_map in Heq. lia. }
  pose proof (fits_transform_toupper a Ha).
  pose proof (fits_transform_toupper b Hb).
  rewrite !ComputeLevenshteinDistance_value by assumption.
  rewrite !transform_toupper_idempotent, Heq. auto.
Qed.

Lemma ComputeLevenshteinDistance_case_insensitive_witness :
  ComputeLevenshteinDistance (str "Weather") (str "whether")
  = ComputeLevenshteinDistance (str "wEATHEr") (str "whether") /\
  ComputeLevenshteinDistance (str "whether") (str "Weather")
  = ComputeLevenshteinDistance (str "whether") (str "wEATHEr") /\
  ComputeLevenshteinDistance (str "Weather") (str "whether")
  = ComputeLevenshteinDistance (transform_toupper (str "Weather"))
                               (transform_toupper (str "whether")).
Proof.
  apply (ComputeLevenshteinDistance_case_insensitive
           (str "Weather") (str "wEATHEr") (str "whether")); reflexivity.
Defined.

(** ** More on the choice of the next node *)

Lemma collect_levDists_nonempty (node : GraphNode) (message : std_string)
    (levDists : list EdgeDist) (p : EdgeDist) :
  p ∈ levDists -> levDists <> [].
Proof. intros Hin ->. inversion Hin. Qed.

(** X7. When the message is, case apart, a keyword of an outgoing edge,
    the node chosen is the child node of an edge that has such a keyword:
    an exact match is never beaten. *)
Theorem select_newNode_exact_match (sort : sort_fun) (w : World) (a : nat)
    (node : GraphNode) (message : std_string) (edge0 : GraphEdge)
    (keyword0 : std_string) :
  std_sort_contract sort ->
  _currentNode (chatbot w) = Addr a ->
  nodes w !! a = Some node ->
  representable_node node ->
  keywords_fit_int node ->
  fits_int message ->
  edge0 ∈ _childEdges node ->
  keyword0 ∈ GetKeywords edge0 ->
  same_ignoring_case keyword0 message ->
  exists edge keyword,
    edge ∈ _childEdges node /\
    keyword ∈ GetKeywords edge /\
    same_ignoring_case keyword message /\
    select_newNode sort message w = Done (GetChildNode edge) w.
Proof.
  intros Hsort Hcur Hnode Hrep Hkw Hmsg He0 Hk0 Hsame.
  assert (Hfits : forall e k, e ∈ _childEdges node -> k ∈ GetKeywords e ->
                    fits_int k).
  { intros e k He Hk. unfold keywords_fit_int in Hkw.
    rewrite Forall_forall in Hkw. specialize (Hkw e He).
    rewrite Forall_forall in Hkw. now apply Hkw. }
  destruct (collect_levDists_pairs node message Hrep (fits_int_size_t _ Hmsg))
    as (levDists & Hcollect & Hfit & Hsound & Hcomplete).
  destruct (Hcomplete edge0 keyword0 He0 Hk0) as (d0 & Hd0 & Hin0).
  rewrite ComputeLevenshteinDistance_small in Hd0 by eauto.
  unfold same_ignoring_case in Hsame. rewrite Hsame, lev_diag in Hd0.
  injection Hd0 as <-.
  destruct (select_newNode_best sort w a node message levDists
              Hsort Hcur Hnode Hcollect Hfit
              (collect_levDists_nonempty node message _ _ Hin0))
    as (best & rest & _ & Hin & Hmin & Hsel).
  destruct (Hsound best Hin) as (keyword & He & Hk & Hd).
  exists best.1, keyword. repeat (split; [assumption |]).
  split; [| exact Hsel].
  rewrite ComputeLevenshteinDistance_small in Hd by eauto.
  specialize (Hmin _ Hin0). cbn in Hmin.
  apply lev_zero_iff. injection Hd as Hd. lia.
Qed.

Lemma demo_root_keywords_fit_int : keywords_fit_int node_root.
Proof.
  unfold keywords_fit_int, fits_int, INT_MAX.
  repeat constructor; vm_compute; discriminate.
Qed.

Lemma select_newNode_exact_match_witness :
  exists edge keyword,
    edge ∈ _childEdges node_root /\
    keyword ∈ GetKeywords edge /\
    same_ignoring_case keyword (str "FUNNY") /\
    select_newNode insertion_sort (str "FUNNY") (demo_world_at (Addr 0))
    = Done (GetChildNode edge) (demo_world_at (Addr 0)).
Proof.
  apply (select_newNode_exact_match insertion_sort (demo_world_at (Addr 0)) 0
           node_root (str "FUNNY") edge_joke (str "funny")).
  - exact insertion_sort_contract.
  - reflexivity.
  - reflexivity.
  - exact demo_root_representable.
  - exact demo_root_keywords_fit_int.
  - unfold fits_int. vm_compute. discriminate.
  - apply elem_of_cons. right. apply elem_of_cons. now left.
  - apply elem_of_cons. right. apply elem_of_cons. now left.
  - reflexivity.
Defined.

(** X8. When one keyword is strictly closer to the message than every
    keyword of every edge that leads elsewhere, the node chosen is the
    child node of its edge, whatever [std::sort] does with equal
    elements. *)
Theorem select_newNode_unique_closest (sort : sort_fun) (w : World) (a : nat)
    (node : GraphNode) (message : std_string) (edge : GraphEdge)
    (keyword : std_string) (d : Z) :
  std_sort_contract sort ->
  _currentNode (chatbot w) = Addr a ->
  nodes w !! a = Some node ->
  representable_node node ->
  fits_size_t message ->
  edge ∈ _childEdges node ->
  keyword ∈ GetKeywords edge ->
  ComputeLevenshteinDistance keyword message = Some d ->
  (forall edge' keyword' d',
     edge' ∈ _childEdges node -> keyword' ∈ GetKeywords edge' ->
     ComputeLevenshteinDistance keyword' message = Some d' ->
     GetChildNode edge' <> GetChildNode edge -> d < d') ->
  select_newNode sort message w = Done (GetChildNode edge) w.
Proof.
  intros Hsort Hcur Hnode Hrep Hmsg He Hk Hd Hcloser.
  destruct (collect_levDists_pairs node message Hrep Hmsg)
    as (levDists & Hcollect & Hfit & Hsound & Hcomplete).
  destruct (Hcomplete edge keyword He Hk) as (d1 & Hd1 & Hin1).
  rewrite Hd in Hd1. injection Hd1 as <-.
  destruct (select_newNode_best sort w a node message levDists
              Hsort Hcur Hnode Hcollect Hfit
              (collect_levDists_nonempty node message _ _ Hin1))
    as (best & rest & _ & Hin & Hmin & Hsel).
  rewrite Hsel. f_equal.
  destruct (decide (GetChildNode best.1 = GetChildNode edge)) as [Heq | Hne];
    [exact Heq |].
  destruct (Hsound best Hin) as (kb & Heb & Hkb & Hdb).
  specialize (Hcloser best.1 kb best.2 Heb Hkb Hdb Hne).
  specialize (Hmin _ Hin1). cbn in Hmin. lia.
Qed.

Lemma select_newNode_unique_closest_witness :
  select_newNode backward_insertion_sort (str "whether") (demo_world_at (Addr 0))
  = Done (GetChildNode edge_weather) (demo_world_at (Addr 0)).
Proof.
  apply (select_newNode_unique_closest backward_insertion_sort
           (demo_world_at (Addr 0)) 0 node_root (str "whether")
           edge_weather (str "weather") 2).
  - exact backward_insertion_sort_contract.
  - reflexivity.
  - reflexivity.
  - exact demo_root_representable.
  - reflexivity.
  - apply elem_of_cons. now left.
  - apply elem_of_cons. now left.
  - vm_compute. reflexivity.
  - intros edge' keyword' d' He' Hk' Hd' Hne.
    apply elem_of_cons in He' as [-> | He'];
      [contradiction |].
    apply elem_of_cons in He' as [-> | He']; [| inversion He'].
    apply elem_of_cons in Hk' as [-> | Hk'].
    { vm_compute in Hd'. injection Hd' as <-. lia. }
    apply elem_of_cons in Hk' as [-> | Hk']; [| inversion Hk'].
    vm_compute in Hd'. injection Hd' as <-. lia.
Defined.

Lemma mapM_edge_pairs_no_keyword (message : std_string) (edges : list GraphEdge) :
  Forall (fun e => GetKeywords e = []) edges ->
  (blocks ← mapM (edge_pairs message) edges; Some (concat blocks)) = Some [].
Proof.
  induction 1 as [| edge edges Hnil _ IH]; [reflexivity |].
  assert (Hedge : edge_pairs message edge = Some []).
  { unfold edge_pairs. now rewrite Hnil. }
  cbn [mapM]. rewrite Hedge. cbn [mbind option_bind].
  destruct (mapM (edge_pairs message) edges) as [blocks |]; [| discriminate].
  cbn in IH |- *. exact IH.
Qed.

(** X9. The conversation goes back to the root node not only when the
    current node has no outgoing edge but whenever none of its edges has a
    keyword. *)
Theorem select_newNode_no_keyword_root (sort : sort_fun) (w : World) (a : nat)
    (node : GraphNode) (message : std_string) :
  _currentNode (chatbot w) = Addr a ->
  nodes w !! a = Some node ->
  fits_size_t (_childEdges node) ->
  Forall (fun e => GetKeywords e = []) (_childEdges node) ->
  select_newNode sort message w = Done (_rootNode (chatbot w)) w.
Proof.
  intros Hcur Hnode Hfit Hnone.
  assert (Hcollect : collect_levDists node message = Some []).
  { rewrite collect_levDists_spec by assumption.
    now apply mapM_edge_pairs_no_keyword. }
  now rewrite (select_newNode_unfold sort w a node message [] Hcur Hnode Hcollect).
Qed.

Lemma select_newNode_no_keyword_root_witness :
  select_newNode insertion_sort (str "hello") silent_world
  = Done (Addr 0) silent_world.
Proof.
  apply (select_newNode_no_keyword_root insertion_sort silent_world 7
           silent_node (str "hello")).
  - reflexivity.
  - reflexivity.
  - reflexivity.
  - repeat constructor.
Defined.

(** X10. A chatbot that has been moved from is not usable: its current
    node is null, and receiving a message with it is undefined behaviour. *)
Theorem moved_from_ChatBot_unusable (sort : sort_fun) (dis : draw_fun)
    (this source : nat) (mem mem' : objects) (s t : ChatBot) (w : World)
    (message : std_string) :
  this <> source ->
  mem !! source = Some s ->
  mem !! this = Some t ->
  ChatBot_move_constructor this source mem = Some mem' \/
  ChatBot_move_assignment this source mem = Some mem' ->
  mem' !! source = Some (chatbot w) ->
  ReceiveMessageFromUser sort dis message w = Undefined.
Proof.
  intros Hne Hs Ht Hmove Hw.
  assert (Hmem' : mem' = <[source := null_ChatBot]> (<[this := s]> mem)).
  { destruct Hmove as [Hmove | Hmove].
    - unfold ChatBot_move_constructor in Hmove.
      rewrite (move_handles_spec this source mem s t Hne Hs Ht) in Hmove.
      congruence.
    - unfold ChatBot_move_assignment in Hmove.
      destruct (decide (this = source)); [contradiction |].
      rewrite (move_handles_spec this source mem s t Hne Hs Ht) in Hmove.
      congruence. }
  rewrite Hmem', lookup_insert_eq in Hw. injection Hw as Hw.
  unfold ReceiveMessageFromUser, select_newNode. run_M.
  unfold deref_node. rewrite <- Hw. reflexivity.
Qed.

Lemma moved_from_ChatBot_unusable_witness :
  ReceiveMessageFromUser insertion_sort modular_draw (str "joke")
    {| nodes := demo_nodes; chatbot := null_ChatBot;
       delivered := []; clock := 0 |}
  = Undefined.
Proof.
  apply (moved_from_ChatBot_unusable insertion_sort modular_draw 3 7
           demo_objects
           (<[7%nat := null_ChatBot]> (<[3%nat := demo_bot]> demo_objects))
           demo_bot null_ChatBot).
  - lia.
  - reflexivity.
  - reflexivity.
  - right. vm_compute. reflexivity.
  - reflexivity.
Defined.

(** ** More on the emission of the answer *)

(** X11. A node with a single answer always gives that answer, whatever
    the clock and the generator. *)
Theorem SetCurrentNode_single_answer (dis : draw_fun) (w : World) (a c : nat)
    (n : GraphNode) (answer : std_string) :
  uniform_int_contract dis ->
  nodes w !! a = Some n ->
  _chatLogic (chatbot w) = Addr c ->
  _answers n = [answer] ->
  SetCurrentNode dis (Addr a) w
  = Done tt {| nodes := nodes w;
               chatbot := with_currentNode (Addr a) (chatbot w);
               delivered := delivered w ++ [answer];
               clock := clock w |}.
Proof.
  intros Hdis Hn Hc Hone.
  destruct (SetCurrentNode_run dis w a c n Hdis Hn Hc) as (x & Hin & Hrun).
  { rewrite Hone. cbn [length]. unfold INT_MAX. lia. }
  rewrite Hone in Hin. apply list_elem_of_singleton in Hin as ->. exact Hrun.
Qed.

Lemma SetCurrentNode_single_answer_witness :
  SetCurrentNode modular_draw (Addr 2) (demo_world_at (Addr 0))
  = Done tt {| nodes := nodes (demo_world_at (Addr 0));
               chatbot := with_currentNode (Addr 2)
                            (chatbot (demo_world_at (Addr 0)));
               delivered := delivered (demo_world_at (Addr 0))
                              ++ [str "Knock knock"];
               clock := clock (demo_world_at (Addr 0)) |}.
Proof.
  apply (SetCurrentNode_single_answer modular_draw (demo_world_at (Addr 0))
           2 900 node_joke (str "Knock knock")).
  - exact modular_draw_contract.
  - reflexivity.
  - reflexivity.
  - reflexivity.
Defined.

Lemma to_int_le (z : Z) : 0 <= z -> to_int z <= z.
Proof.
  intros Hz. unfold to_int.
  pose proof (Z.mod_le (z + 2 ^ 31) (2 ^ 32) ltac:(lia) ltac:(lia)). lia.
Qed.

(** X12. With a generator that meets the contract of the library the
    range check of [at] never fails: [SetCurrentNode] does not leave by an
    exception. It returns, or its behaviour is undefined. *)
Theorem SetCurrentNode_never_throws (dis : draw_fun) (node : ptr) (w : World) :
  uniform_int_contract dis ->
  (forall a n, nodes w !! a = Some n -> fits_size_t (_answers n)) ->
  ~ (exists e w', SetCurrentNode dis node w = Throws e w').
Proof.
  intros Hdis Hfits (e & w' & Hthrows). revert Hthrows.
  unfold SetCurrentNode. run_M.
  unfold deref_node. cbn [nodes].
  destruct node as [| a]; [discriminate |].
  destruct (nodes w !! a) as [n |] eqn:Hn; [| discriminate].
  specialize (Hfits a n Hn). unfold uniform_int_distribution, GetAnswers.
  set (b := to_int (size_t_sub (size (_answers n)) 1)).
  destruct (Z.leb_spec 0 b) as [Hb | _]; [| discriminate].
  run_M.
  pose proof (Hdis (to_int (clock w)) 0 b Hb) as Hidx.
  assert (Hlen : b < Z.of_nat (length (_answers n))).
  { assert (Hsize : size (_answers n) = Z.of_nat (length (_answers n)))
      by now apply size_fits.
    unfold fits_size_t in Hfits.
    destruct (Z.eq_dec (Z.of_nat (length (_answers n))) 0) as [Hz | Hnz].
    - exfalso. unfold b in Hb. rewrite Hsize, Hz in Hb.
      change (to_int (size_t_sub 0 1)) with (-1) in Hb. lia.
    - unfold b. rewrite Hsize. unfold size_t_sub.
      rewrite size_t_wrap_small by lia.
      pose proof (to_int_le (Z.of_nat (length (_answers n)) - 1) ltac:(lia)).
      lia. }
  match goal with
  | |- context [vector_at ?v ?i ?st] =>
      destruct (vector_at_in_range v i st ltac:(lia) Hfits) as (x & Hat & _);
      rewrite Hat
  end.
  unfold SendMessageToUser.
  destruct (_chatLogic (chatbot w)); discriminate.
Qed.

Lemma SetCurrentNode_never_throws_witness :
  ~ (exists e w',
       SetCurrentNode modular_draw (Addr 1) (demo_world_at (Addr 0))
       = Throws e w').
Proof.
  apply (SetCurrentNode_never_throws modular_draw (Addr 1)
           (demo_world_at (Addr 0))).
  - exact modular_draw_contract.
  - intros a n Hn. cbn [nodes demo_world_at] in Hn. unfold demo_nodes in Hn.
    repeat (rewrite lookup_insert in Hn;
            destruct (decide _) in Hn;
            [injection Hn as <-; reflexivity |]).
    rewrite lookup_empty in Hn. discriminate.
Defined.

(** ** Constructors, destructor, copy and move *)

Lemma assign_member_spec (upd : ChatBot -> ChatBot) (this : nat) (m : Memory)
    (b : ChatBot) :
  bots m !! this = Some b ->
  assign_member upd this m
  = Some {| bots := <[this := upd b]> (bots m); bitmaps := bitmaps m;
            heap_nodes := heap_nodes m |}.
Proof. intros Hb. unfold assign_member, write_member. now rewrite Hb. Qed.

Lemma assign_member_inv (upd : ChatBot -> ChatBot) (this : nat) (m m' : Memory) :
  assign_member upd this m = Some m' ->
  exists b, bots m !! this = Some b /\
    m' = {| bots := <[this := upd b]> (bots m); bitmaps := bitmaps m;
            heap_nodes := heap_nodes m |}.
Proof.
  unfold assign_member, write_member.
  destruct (bots m !! this) as [b |]; [| discriminate].
  cbn. intros [= <-]. eauto.
Qed.

(** What the two constructors leave at [this]. *)
Lemma ChatBot_default_constructor_spec (this : nat) (m : Memory) (t : ChatBot) :
  bots m !! this = Some t ->
  ChatBot_default_constructor this m
  = Some {| bots := <[this := {| _image := nullptr;
                                 _currentNode := _currentNode t;
                                 _rootNode := nullptr;
                                 _chatLogic := nullptr |}]> (bots m);
            bitmaps := bitmaps m; heap_nodes := heap_nodes m |}.
Proof.
  intros Ht. unfold ChatBot_default_constructor.
  rewrite (assign_member_spec _ _ _ t Ht). cbn [mbind option_bind].
  erewrite assign_member_spec by (cbn [bots]; apply lookup_insert_eq).
  cbn [mbind option_bind].
  erewrite assign_member_spec by (cbn [bots]; apply lookup_insert_eq).
  cbn [bots bitmaps heap_nodes]. rewrite !insert_insert_eq.
  destruct t; reflexivity.
Qed.

Lemma ChatBot_file_constructor_spec (this : nat) (filename : std_string)
    (m : Memory) (t : ChatBot) :
  bots m !! this = Some t ->
  ChatBot_file_constructor this filename m
  = Some {| bots := <[this := {| _image := Addr (fresh (dom (bitmaps m)));
                                 _currentNode := _currentNode t;
                                 _rootNode := nullptr;
                                 _chatLogic := nullptr |}]> (bots m);
            bitmaps := <[fresh (dom (bitmaps m)) := wxBitmap_from_file filename]>
                         (bitmaps m);
            heap_nodes := heap_nodes m |}.
Proof.
  intros Ht. unfold ChatBot_file_constructor.
  rewrite (assign_member_spec _ _ _ t Ht). cbn [mbind option_bind].
  erewrite assign_member_spec by (cbn [bots]; apply lookup_insert_eq).
  cbn [mbind option_bind]. unfold new_wxBitmap. cbn [bots bitmaps heap_nodes].
  erewrite assign_member_spec by (cbn [bots]; apply lookup_insert_eq).
  cbn [bots bitmaps heap_nodes]. rewrite !insert_insert_eq.
  destruct t; reflexivity.
Qed.

Lemma ChatBot_destructor_spec (this : nat) (m : Memory) (b : ChatBot) :
  bots m !! this = Some b ->
  ChatBot_destructor this m
  = match _image b with
    | nullptr => Some m
    | Addr i =>
        match bitmaps m !! i with
        | Some _ =>
            Some {| bots := <[this := with_image nullptr b]> (bots m);
                    bitmaps := delete i (bitmaps m);
                    heap_nodes := heap_nodes m |}
        | None => None
        end
    end.
Proof.
  intros Hb. unfold ChatBot_destructor. rewrite Hb. cbn [mbind option_bind].
  destruct (_image b) as [| i] eqn:Hi.
  - destruct (decide (nullptr = nullptr)); [reflexivity | contradiction].
  - destruct (decide (Addr i = nullptr)); [discriminate |].
    unfold delete_wxBitmap.
    destruct (bitmaps m !! i); [| reflexivity].
    cbn [mbind option_bind].
    erewrite assign_member_spec by (cbn [bots]; exact Hb).
    reflexivity.
Qed.

Lemma fresh_lookup_None {V} (h : gmap nat V) : h !! fresh (dom h) = None.
Proof. apply not_elem_of_dom, is_fresh. Qed.

Lemma lookup_fresh_ne {V} (h : gmap nat V) (a : nat) :
  is_Some (h !! a) -> a <> fresh (dom h).
Proof.
  intros [v Hv] ->. rewrite fresh_lookup_None in Hv. discriminate.
Qed.

Section CopyFacts.
Variable GraphNode_of_id : nat -> GraphNode.


(** What the copy operations change whenever they return. *)
Lemma copy_handles_effect (this source : nat) (m m' : Memory) :
  copy_handles GraphNode_of_id this source m = Some m' ->
  exists b' image,
    bots m' = <[this := b']> (bots m) /\
    _image b' = Addr (fresh (dom (bitmaps m))) /\
    bitmaps m' = <[fresh (dom (bitmaps m)) := image]> (bitmaps m) /\
    heap_nodes m ⊆ heap_nodes m'.
Proof.
  unfold copy_handles. intros H.
  destruct (bots m !! source) as [s0 |]; [| discriminate].
  cbn [mbind option_bind] in H.
  destruct (deref_wxBitmap (_image s0) m) as [image |]; [| discriminate].
  cbn [mbind option_bind] in H. unfold new_wxBitmap in H.
  destruct (assign_member (with_image _) this _) as [m1 |] eqn:H1;
    [| discriminate].
  apply assign_member_inv in H1 as (b1 & Hb1 & ->).
  cbn [mbind option_bind bots bitmaps heap_nodes] in *.
  destruct (<[this := _]> (bots m) !! source) as [s1 |]; [| discriminate].
  cbn [mbind option_bind] in H.
  destruct (deref_GraphNode (_currentNode s1) _) as [current |]; [| discriminate].
  cbn [mbind option_bind] in H. unfold new_GraphNode in H.
  cbn [bots bitmaps heap_nodes] in H.
  destruct (assign_member (with_currentNode _) this _) as [m2 |] eqn:H2;
    [| discriminate].
  apply assign_member_inv in H2 as (b2 & Hb2 & ->).
  cbn [mbind option_bind bots bitmaps heap_nodes] in *.
  rewrite lookup_insert_eq in Hb2. injection Hb2 as <-.
  rewrite insert_insert_eq in H.
  destruct (<[this := _]> (bots m) !! source) as [s2 |]; [| discriminate].
  cbn [mbind option_bind] in H.
  destruct (deref_GraphNode (_rootNode s2) _) as [root |]; [| discriminate].
  cbn [mbind option_bind bots bitmaps heap_nodes] in H.
  destruct (assign_member (with_rootNode _) this _) as [m3 |] eqn:H3;
    [| discriminate].
  apply assign_member_inv in H3 as (b3 & Hb3 & ->).
  cbn [mbind option_bind bots bitmaps heap_nodes] in *.
  rewrite lookup_insert_eq in Hb3. injection Hb3 as <-.
  rewrite insert_insert_eq in H.
  destruct (<[this := _]> (bots m) !! source) as [s3 |]; [| discriminate].
  cbn [mbind option_bind] in H.
  apply assign_member_inv in H as (b4 & Hb4 & ->).
  cbn [bots bitmaps heap_nodes] in *.
  rewrite lookup_insert_eq in Hb4. injection Hb4 as <-.
  rewrite insert_insert_eq.
  eexists _, image. split; [reflexivity |]. split; [reflexivity |].
  split; [reflexivity |].
  etransitivity; [| apply insert_subseteq, fresh_lookup_None].
  apply insert_subseteq, fresh_lookup_None.
Qed.

End CopyFacts.

(** *** No image is held twice *)

Lemma image_ownership_subset (live live' : gset nat) (m : Memory) :
  live' ⊆ live -> image_ownership live m -> image_ownership live' m.
Proof.
  intros Hsub [Hstorage Hown]. split.
  - intros a Ha. apply Hstorage. set_solver + Hsub Ha.
  - intros a b i Ha Hb Hi.
    assert (Ha0 : a ∈ live) by set_solver + Hsub Ha.
    destruct (Hown a b i Ha0 Hb Hi) as [Halloc Hothers].
    split; [exact Halloc |].
    intros a' b' Ha' Hne Hb'.
    assert (Ha1 : a' ∈ live) by set_solver + Hsub Ha'.
    now apply (Hothers a' b').
Qed.

(** The chatbot at [this] is overwritten with a null image handle or with
    the address of a bitmap that was not in the free store before; no
    bitmap goes away. *)
Lemma image_ownership_overwrite (live live' : gset nat) (m m' : Memory)
    (this : nat) (b' : ChatBot) :
  image_ownership live m ->
  (forall a, a ∈ live' -> a ∈ live \/ a = this) ->
  bots m' = <[this := b']> (bots m) ->
  (forall i, is_Some (bitmaps m !! i) -> is_Some (bitmaps m' !! i)) ->
  (_image b' = nullptr \/
   exists i, _image b' = Addr i /\ bitmaps m !! i = None /\
             is_Some (bitmaps m' !! i)) ->
  image_ownership live' m'.
Proof.
  intros [Hstorage Hown] Hlive Hbots Hgrow Himage. split.
  - intros a Ha. rewrite Hbots.
    destruct (decide (a = this)) as [-> | Hne].
    + rewrite lookup_insert_eq. eauto.
    + rewrite lookup_insert_ne by congruence.
      destruct (Hlive a Ha); [auto | contradiction].
  - intros a b i Ha Hb Hi. rewrite Hbots in Hb.
    destruct (decide (a = this)) as [-> | Hne].
    + rewrite lookup_insert_eq in Hb. injection Hb as <-.
      destruct Himage as [Hnull | (i' & Hi' & Hnew & Halloc)]; [congruence |].
      assert (i' = i) as -> by congruence.
      split; [exact Halloc |].
      intros a' b'' Ha' Hne' Hb''. rewrite Hbots in Hb''.
      rewrite lookup_insert_ne in Hb'' by congruence.
      intros Heq.
      destruct (Hlive a' Ha') as [Hin | ->]; [| contradiction].
      destruct (Hown a' b'' i Hin Hb'' Heq) as [[x Hx] _]. congruence.
    + rewrite lookup_insert_ne in Hb by congruence.
      destruct (Hlive a Ha) as [Hin | ->]; [| contradiction].
      destruct (Hown a b i Hin Hb Hi) as [Halloc Hothers].
      split; [now apply Hgrow |].
      intros a' b'' Ha' Hne' Hb''. rewrite Hbots in Hb''.
      destruct (decide (a' = this)) as [-> | Hne''].
      * rewrite lookup_insert_eq in Hb''. injection Hb'' as <-.
        destruct Himage as [Hnull | (i' & Hi' & Hnew & _)]; [congruence |].
        intros Heq. assert (i' = i) as -> by congruence.
        destruct Halloc as [x Hx]. congruence.
      * rewrite lookup_insert_ne in Hb'' by congruence.
        destruct (Hlive a' Ha') as [Hin' | ->]; [| contradiction].
        now apply (Hothers a' b'').
Qed.

(** The handles of [source] go to [this] and [source] is left with null
    handles; the free store is as before. *)
Lemma image_ownership_move (live live' : gset nat) (m : Memory)
    (this source : nat) (s : ChatBot) :
  image_ownership live m ->
  source ∈ live ->
  this <> source ->
  bots m !! source = Some s ->
  (forall a, a ∈ live' -> a ∈ live \/ a = this) ->
  image_ownership live'
    {| bots := <[source := null_ChatBot]> (<[this := s]> (bots m));
       bitmaps := bitmaps m; heap_nodes := heap_nodes m |}.
Proof.
  intros [Hstorage Hown] Hsource Hne Hs Hlive. split; cbn [bots bitmaps].
  - intros a Ha.
    destruct (decide (a = source)) as [-> | Hne1];
      [rewrite lookup_insert_eq; eauto |].
    rewrite lookup_insert_ne by congruence.
    destruct (decide (a = this)) as [-> | Hne2];
      [rewrite lookup_insert_eq; eauto |].
    rewrite lookup_insert_ne by congruence.
    destruct (Hlive a Ha); [auto | contradiction].
  - assert (Hlook : forall a b, a ∈ live' ->
              <[source := null_ChatBot]> (<[this := s]> (bots m)) !! a = Some b ->
              b = null_ChatBot \/
              (a = this /\ b = s) \/
              (a <> this /\ a <> source /\ a ∈ live /\ bots m !! a = Some b)).
    { intros a b Ha Hb.
      destruct (decide (a = source)) as [-> | Hne1].
      { rewrite lookup_insert_eq in Hb. left. congruence. }
      rewrite lookup_insert_ne in Hb by congruence.
      destruct (decide (a = this)) as [-> | Hne2].
      { rewrite lookup_insert_eq in Hb. right. left. split; congruence. }
      rewrite lookup_insert_ne in Hb by congruence.
      right. right. destruct (Hlive a Ha); [auto | contradiction]. }
    intros a b i Ha Hb Hi.
    destruct (Hlook a b Ha Hb) as [-> | [[-> ->] | (Hn1 & Hn2 & Hin & Hb0)]].
    + discriminate.
    + destruct (Hown source s i Hsource Hs Hi) as [Halloc Hothers].
      split; [exact Halloc |].
      intros a' b' Ha' Hne' Hb'.
      destruct (Hlook a' b' Ha' Hb') as [-> | [[-> ->] | (Hn1 & Hn2 & Hin & Hb0)]].
      * discriminate.
      * contradiction.
      * now apply (Hothers a' b').
    + destruct (Hown a b i Hin Hb0 Hi) as [Halloc Hothers].
      split; [exact Halloc |].
      intros a' b' Ha' Hne' Hb'.
      destruct (Hlook a' b' Ha' Hb') as [-> | [[-> ->] | (Hn1' & Hn2' & Hin' & Hb0')]].
      * discriminate.
      * apply (Hothers source s); auto.
      * now apply (Hothers a' b').
Qed.

Lemma assign_handles_inv (this : nat) (current root logic : ptr) (m m' : Memory) :
  assign_handles this current root logic m = Some m' ->
  exists b, bots m !! this = Some b /\
    m' = {| bots := <[this := {| _image := _image b; _currentNode := current;
                                 _rootNode := root; _chatLogic := logic |}]>
                      (bots m);
            bitmaps := bitmaps m; heap_nodes := heap_nodes m |}.
Proof.
  unfold assign_handles. intros H.
  destruct (assign_member (with_currentNode current) this m) as [m1 |] eqn:H1;
    [| discriminate].
  apply assign_member_inv in H1 as (b & Hb & ->).
  cbn [mbind option_bind] in H.
  erewrite assign_member_spec in H by (cbn [bots]; apply lookup_insert_eq).
  cbn [mbind option_bind] in H.
  erewrite assign_member_spec in H by (cbn [bots]; apply lookup_insert_eq).
  injection H as <-. cbn [bots bitmaps heap_nodes].
  rewrite !insert_insert_eq. eauto.
Qed.

(** A chatbot is overwritten by one with the same image handle. *)
Lemma image_ownership_same_image (live : gset nat) (m : Memory) (this : nat)
    (b b' : ChatBot) :
  image_ownership live m ->
  bots m !! this = Some b ->
  _image b' = _image b ->
  image_ownership live
    {| bots := <[this := b']> (bots m); bitmaps := bitmaps m;
       heap_nodes := heap_nodes m |}.
Proof.
  intros [Hstorage Hown] Hb Himage.
  assert (Hlook : forall a x, <[this := b']> (bots m) !! a = Some x ->
            exists y, bots m !! a = Some y /\ _image x = _image y).
  { intros a x Hx. destruct (decide (a = this)) as [-> | Hne].
    - rewrite lookup_insert_eq in Hx. injection Hx as <-. eauto.
    - rewrite lookup_insert_ne in Hx by congruence. eauto. }
  split; cbn [bots bitmaps].
  - intros a Ha. destruct (decide (a = this)) as [-> | Hne].
    + rewrite lookup_insert_eq. eauto.
    + rewrite lookup_insert_ne by congruence. auto.
  - intros a x i Ha Hx Hi.
    destruct (Hlook a x Hx) as (y & Hy & Heq). rewrite Heq in Hi.
    destruct (Hown a y i Ha Hy Hi) as [Halloc Hothers].
    split; [exact Halloc |].
    intros a' x' Ha' Hne Hx'.
    destruct (Hlook a' x' Hx') as (y' & Hy' & Heq'). rewrite Heq'.
    now apply (Hothers a' y').
Qed.

Lemma move_handles_inv (this source : nat) (mem mem' : objects) :
  this <> source ->
  move_handles this source mem = Some mem' ->
  exists s t, mem !! source = Some s /\ mem !! this = Some t /\
    mem' = <[source := null_ChatBot]> (<[this := s]> mem).
Proof.
  intros Hne Hmove.
  destruct (mem !! source) as [s |] eqn:Hs.
  - destruct (mem !! this) as [t |] eqn:Ht.
    + rewrite (move_handles_spec this source mem s t Hne Hs Ht) in Hmove.
      injection Hmove as <-. eauto.
    + unfold move_handles, copy_member, write_member in Hmove.
      rewrite Hs, Ht in Hmove. discriminate.
  - unfold move_handles, copy_member in Hmove. rewrite Hs in Hmove.
    discriminate.
Qed.

Section Lifecycle.
Variable GraphNode_of_id : nat -> GraphNode.

Lemma image_ownership_step (live : gset nat) (m m' : Memory) (op : operation) :
  image_ownership live m ->
  lifetime_allows live op ->
  run_operation GraphNode_of_id op m = Some m' ->
  image_ownership (live_after live op) m'.
Proof.
  intros Hinv Hallowed Hrun.
  destruct op as [this | this filename | this | this source | this source
                 | this source | this source | this current root logic];
    cbn [run_operation lifetime_allows live_after] in *.
  - (* ChatBot() *)
    destruct (bots m !! this) as [t |] eqn:Ht.
    2:{ unfold ChatBot_default_constructor, assign_member, write_member in Hrun.
        rewrite Ht in Hrun. discriminate. }
    rewrite (ChatBot_default_constructor_spec this m t Ht) in Hrun.
    injection Hrun as <-.
    eapply (image_ownership_overwrite live _ m _ this);
      [exact Hinv | set_solver | cbn [bots]; reflexivity
      | cbn [bitmaps]; auto | now left].
  - (* ChatBot(filename) *)
    destruct (bots m !! this) as [t |] eqn:Ht.
    2:{ unfold ChatBot_file_constructor, assign_member, write_member in Hrun.
        rewrite Ht in Hrun. discriminate. }
    rewrite (ChatBot_file_constructor_spec this filename m t Ht) in Hrun.
    injection Hrun as <-.
    eapply (image_ownership_overwrite live _ m _ this);
      [exact Hinv | set_solver | cbn [bots]; reflexivity | |].
    + cbn [bitmaps]. intros i Hi.
      rewrite lookup_insert_ne by (apply not_eq_sym, lookup_fresh_ne, Hi).
      exact Hi.
    + right. eexists. split; [reflexivity |].
      split; [apply fresh_lookup_None |].
      cbn [bitmaps]. rewrite lookup_insert_eq. eauto.
  - (* ~ChatBot() *)
    destruct Hinv as [Hstorage Hown].
    destruct (Hstorage this Hallowed) as [b Hb].
    rewrite (ChatBot_destructor_spec this m b Hb) in Hrun.
    destruct (_image b) as [| i] eqn:Hi.
    + injection Hrun as <-.
      apply (image_ownership_subset live); [| now split].
      apply elem_of_subseteq. intros a [Ha _]%elem_of_difference. exact Ha.
    + destruct (Hown this b i Hallowed Hb Hi) as [[x Hx] Hothers].
      rewrite Hx in Hrun. injection Hrun as <-.
      split; cbn [bots bitmaps].
      * intros a [Hin Hne]%elem_of_difference.
        rewrite elem_of_singleton in Hne.
        rewrite lookup_insert_ne by congruence. now apply Hstorage.
      * intros a b0 i0 [Hin Hne]%elem_of_difference Hb0 Hi0.
        rewrite elem_of_singleton in Hne.
        rewrite lookup_insert_ne in Hb0 by congruence.
        destruct (Hown a b0 i0 Hin Hb0 Hi0) as [Halloc Hothers0].
        assert (i0 <> i).
        { intros ->. apply (Hothers0 this b); auto. }
        split; [now rewrite lookup_delete_ne by congruence |].
        intros a' b' [Hin' Hne'']%elem_of_difference Hne' Hb'.
        rewrite elem_of_singleton in Hne''.
        rewrite lookup_insert_ne in Hb' by congruence.
        now apply (Hothers0 a' b').
  - (* copy constructor *)
    unfold ChatBot_copy_constructor in Hrun.
    apply copy_handles_effect in Hrun as (b' & image & Hbots & Himage & Hbm & _).
    eapply (image_ownership_overwrite live _ m _ this);
      [exact Hinv | set_solver | exact Hbots | |].
    + rewrite Hbm. intros i Hi.
      rewrite lookup_insert_ne by (apply not_eq_sym, lookup_fresh_ne, Hi).
      exact Hi.
    + right. eexists. split; [exact Himage |].
      split; [apply fresh_lookup_None |].
      rewrite Hbm, lookup_insert_eq. eauto.
  - (* copy assignment *)
    unfold ChatBot_copy_assignment in Hrun.
    destruct (decide (this = source)); [now injection Hrun as <- |].
    apply copy_handles_effect in Hrun as (b' & image & Hbots & Himage & Hbm & _).
    eapply (image_ownership_overwrite live _ m _ this);
      [exact Hinv | auto | exact Hbots | |].
    + rewrite Hbm. intros i Hi.
      rewrite lookup_insert_ne by (apply not_eq_sym, lookup_fresh_ne, Hi).
      exact Hi.
    + right. eexists. split; [exact Himage |].
      split; [apply fresh_lookup_None |].
      rewrite Hbm, lookup_insert_eq. eauto.
  - (* move constructor *)
    destruct Hallowed as [Hthis Hsource].
    assert (Hne : this <> source) by set_solver.
    unfold move_constructor_in, ChatBot_move_constructor in Hrun.
    destruct (move_handles this source (bots m)) as [bs |] eqn:Hmove;
      [| discriminate].
    injection Hrun as <-.
    apply (move_handles_inv _ _ _ _ Hne) in Hmove as (s & t & Hs & Ht & ->).
    apply (image_ownership_move live); auto. set_solver.
  - (* move assignment *)
    destruct Hallowed as [Hthis Hsource].
    unfold move_assignment_in, ChatBot_move_assignment in Hrun.
    destruct (decide (this = source)) as [Heq | Hne].
    { injection Hrun as <-. now destruct m. }
    destruct (move_handles this source (bots m)) as [bs |] eqn:Hmove;
      [| discriminate].
    injection Hrun as <-.
    apply (move_handles_inv _ _ _ _ Hne) in Hmove as (s & t & Hs & Ht & ->).
    apply (image_ownership_move live); auto.
  - (* assignment of the other handles *)
    destruct (assign_handles_inv _ _ _ _ _ _ Hrun) as (b & Hb & ->).
    apply (image_ownership_same_image live m this b); auto.
Qed.

End Lifecycle.

(** X13. Whatever special member functions run, in whatever order the
    lifetime rules of the language allow: every live chatbot whose image
    handle is not null points to a bitmap of the free store, and no two
    live chatbots hold the same bitmap. *)
Theorem reachable_image_ownership (GraphNode_of_id : nat -> GraphNode)
    (live : gset nat) (m : Memory) :
  reachable GraphNode_of_id live m -> image_ownership live m.
Proof.
  induction 1 as [m | live m op m' _ IH Hallowed Hrun].
  - split; intros a; set_solver.
  - eapply image_ownership_step; eauto.
Qed.

Lemma demo_memory_built_reachable :
  reachable bare_GraphNode demo_live demo_memory_built.
Proof.
  unfold demo_live.
  apply (reachable_step bare_GraphNode _ demo_memory_loaded
           (set_handles 0 (Addr 0) (Addr 0) (Addr 900))).
  - apply (reachable_step bare_GraphNode ∅ demo_memory
             (file_construct 0 (str "chatbot.png"))).
    + constructor.
    + cbn. set_solver.
    + vm_compute. reflexivity.
  - cbn. set_solver.
  - vm_compute. reflexivity.
Qed.

Lemma demo_memory_pair_reachable :
  reachable bare_GraphNode demo_live_pair demo_memory_pair.
Proof.
  unfold demo_live_pair.
  apply (reachable_step bare_GraphNode _ demo_memory_built
           (file_construct 1 (str "user.png"))).
  - exact demo_memory_built_reachable.
  - unfold demo_live. cbn [lifetime_allows live_after].
    rewrite !elem_of_union, elem_of_empty, elem_of_singleton. lia.
  - vm_compute. reflexivity.
Qed.

Lemma reachable_image_ownership_witness :
  image_ownership demo_live_pair demo_memory_pair.
Proof.
  apply (reachable_image_ownership bare_GraphNode demo_live_pair
           demo_memory_pair).
  exact demo_memory_pair_reachable.
Defined.

(** X14. In every state reached that way the destructor of a live chatbot
    returns: it deletes the bitmap of that chatbot, if it has one, and no
    other, so that nothing is deleted twice. *)
Theorem destructor_of_live_ChatBot_returns (GraphNode_of_id : nat -> GraphNode)
    (live : gset nat) (m : Memory) (this : nat) :
  reachable GraphNode_of_id live m ->
  this ∈ live ->
  exists b m',
    bots m !! this = Some b /\
    ChatBot_destructor this m = Some m' /\
    bitmaps m' = match _image b with
                 | nullptr => bitmaps m
                 | Addr i => delete i (bitmaps m)
                 end /\
    heap_nodes m' = heap_nodes m /\
    (forall a, a <> this -> bots m' !! a = bots m !! a).
Proof.
  intros Hreach Hthis.
  assert (Hinv : image_ownership live m).
  { clear Hthis. induction Hreach as [m | live m op m' _ IH Hallowed Hrun].
    - split; intros a; set_solver.
    - eapply image_ownership_step; eauto. }
  destruct Hinv as [Hstorage Hown].
  destruct (Hstorage this Hthis) as [b Hb].
  exists b. rewrite (ChatBot_destructor_spec this m b Hb).
  destruct (_image b) as [| i] eqn:Hi.
  - exists m. auto.
  - destruct (Hown this b i Hthis Hb Hi) as [[x Hx] _]. rewrite Hx.
    eexists. split; [exact Hb |]. split; [reflexivity |].
    cbn [bots bitmaps heap_nodes]. repeat split.
    intros a Hne. now rewrite lookup_insert_ne by congruence.
Qed.

Lemma destructor_of_live_ChatBot_returns_witness :
  exists b m',
    bots demo_memory_built !! 0%nat = Some b /\
    ChatBot_destructor 0 demo_memory_built = Some m' /\
    bitmaps m' = match _image b with
                 | nullptr => bitmaps demo_memory_built
                 | Addr i => delete i (bitmaps demo_memory_built)
                 end /\
    heap_nodes m' = heap_nodes demo_memory_built /\
    (forall a, a <> 0%nat -> bots m' !! a = bots demo_memory_built !! a).
Proof.
  apply (destructor_of_live_ChatBot_returns bare_GraphNode demo_live
           demo_memory_built 0).
  - exact demo_memory_built_reachable.
  - unfold demo_live. cbn. set_solver.
Defined.

(** X15. No operation on a chatbot deletes or changes a node of the
    graph: the nodes are not owned. The copy operations add nodes, which
    nothing deletes afterwards. *)
Theorem operations_keep_graph_nodes (GraphNode_of_id : nat -> GraphNode)
    (op : operation) (m m' : Memory) :
  run_operation GraphNode_of_id op m = Some m' ->
  heap_nodes m ⊆ heap_nodes m' /\
  (is_copy op = false -> heap_nodes m' = heap_nodes m).
Proof.
  intros Hrun.
  destruct op as [this | this filename | this | this source | this source
                 | this source | this source | this current root logic];
    cbn [run_operation] in Hrun.
  - destruct (bots m !! this) as [t |] eqn:Ht.
    2:{ unfold ChatBot_default_constructor, assign_member, write_member in Hrun.
        rewrite Ht in Hrun. discriminate. }
    rewrite (ChatBot_default_constructor_spec this m t Ht) in Hrun.
    injection Hrun as <-. auto.
  - destruct (bots m !! this) as [t |] eqn:Ht.
    2:{ unfold ChatBot_file_constructor, assign_member, write_member in Hrun.
        rewrite Ht in Hrun. discriminate. }
    rewrite (ChatBot_file_constructor_spec this filename m t Ht) in Hrun.
    injection Hrun as <-. auto.
  - destruct (bots m !! this) as [b |] eqn:Hb.
    2:{ unfold ChatBot_destructor in Hrun. rewrite Hb in Hrun. discriminate. }
    rewrite (ChatBot_destructor_spec this m b Hb) in Hrun.
    destruct (_image b) as [| i]; [injection Hrun as <-; auto |].
    destruct (bitmaps m !! i); [| discriminate].
    injection Hrun as <-. auto.
  - apply copy_handles_effect in Hrun as (_ & _ & _ & _ & _ & Hsub).
    split; [exact Hsub | discriminate].
  - unfold ChatBot_copy_assignment in Hrun.
    destruct (decide (this = source)); [injection Hrun as <-; auto |].
    apply copy_handles_effect in Hrun as (_ & _ & _ & _ & _ & Hsub).
    split; [exact Hsub | discriminate].
  - unfold move_constructor_in in Hrun.
    destruct (ChatBot_move_constructor this source (bots m)); [| discriminate].
    injection Hrun as <-. auto.
  - unfold move_assignment_in in Hrun.
    destruct (ChatBot_move_assignment this source (bots m)); [| discriminate].
    injection Hrun as <-. auto.
  - destruct (assign_handles_inv _ _ _ _ _ _ Hrun) as (b & _ & ->). auto.
Qed.

Lemma operations_keep_graph_nodes_witness :
  exists m',
    run_operation bare_GraphNode (copy_construct 1 0) demo_memory_built = Some m' /\
    heap_nodes demo_memory_built ⊆ heap_nodes m' /\
    (is_copy (copy_construct 1 0) = false ->
     heap_nodes m' = heap_nodes demo_memory_built).
Proof.
  eexists. split; [vm_compute; reflexivity |].
  apply (operations_keep_graph_nodes bare_GraphNode (copy_construct 1 0)
           demo_memory_built).
  vm_compute. reflexivity.
Defined.

(** X16. Building a chatbot from a file and destroying it leaves the free
    store as it was: the destructor deletes the bitmap the constructor
    made. After the default constructor the destructor deletes nothing. *)
Theorem constructor_destructor_round_trip (this : nat) (filename : std_string)
    (m : Memory) (t : ChatBot) :
  bots m !! this = Some t ->
  (exists m1 m2,
     ChatBot_file_constructor this filename m = Some m1 /\
     bitmaps m1 !! fresh (dom (bitmaps m)) = Some (wxBitmap_from_file filename) /\
     ChatBot_destructor this m1 = Some m2 /\
     bitmaps m2 = bitmaps m /\ heap_nodes m2 = heap_nodes m) /\
  (exists m1,
     ChatBot_default_constructor this m = Some m1 /\
     ChatBot_destructor this m1 = Some m1 /\
     bitmaps m1 = bitmaps m /\ heap_nodes m1 = heap_nodes m).
Proof.
  intros Ht. split.
  - eexists _, _.
    split; [apply (ChatBot_file_constructor_spec this filename m t Ht) |].
    cbn [bitmaps]. split; [apply lookup_insert_eq |].
    erewrite ChatBot_destructor_spec by (cbn [bots]; apply lookup_insert_eq).
    cbn [_image bitmaps]. rewrite lookup_insert_eq.
    split; [reflexivity |]. cbn [bitmaps heap_nodes].
    split; [| reflexivity]. apply delete_insert_id, fresh_lookup_None.
  - eexists.
    split; [apply (ChatBot_default_constructor_spec this m t Ht) |].
    erewrite ChatBot_destructor_spec by (cbn [bots]; apply lookup_insert_eq).
    cbn [_image]. auto.
Qed.

Lemma constructor_destructor_round_trip_witness :
  (exists m1 m2,
     ChatBot_file_constructor 2 (str "chatbot.png") demo_memory_built = Some m1 /\
     bitmaps m1 !! fresh (dom (bitmaps demo_memory_built))
     = Some (wxBitmap_from_file (str "chatbot.png")) /\
     ChatBot_destructor 2 m1 = Some m2 /\
     bitmaps m2 = bitmaps demo_memory_built /\
     heap_nodes m2 = heap_nodes demo_memory_built) /\
  (exists m1,
     ChatBot_default_constructor 2 demo_memory_built = Some m1 /\
     ChatBot_destructor 2 m1 = Some m1 /\
     bitmaps m1 = bitmaps demo_memory_built /\
     heap_nodes m1 = heap_nodes demo_memory_built).
Proof.
  apply (constructor_destructor_round_trip 2 (str "chatbot.png")
           demo_memory_built demo_bot).
  reflexivity.
Defined.



(** *** What the assignment operators and the copies leave behind *)

Lemma reachable_invariant (GraphNode_of_id : nat -> GraphNode)
    (P : gset nat -> Memory -> Prop) :
  (forall m, P ∅ m) ->
  (forall live m op m',
     P live m -> lifetime_allows live op ->
     run_operation GraphNode_of_id op m = Some m' ->
     P (live_after live op) m') ->
  forall live m, reachable GraphNode_of_id live m -> P live m.
Proof.
  intros Hstart Hstep live m Hreach.
  induction Hreach as [m | live m op m' _ IH Hallowed Hrun]; eauto.
Qed.

Lemma copy_handles_source_not_null (GraphNode_of_id : nat -> GraphNode)
    (this source : nat) (m m' : Memory) (s : ChatBot) :
  this <> source ->
  bots m !! source = Some s ->
  copy_handles GraphNode_of_id this source m = Some m' ->
  _image s <> nullptr /\ _currentNode s <> nullptr /\ _rootNode s <> nullptr.
Proof.
  intros Hne Hs H. unfold copy_handles in H. rewrite Hs in H.
  cbn [mbind option_bind] in H.
  destruct (_image s) as [| i]; [discriminate |].
  cbn [deref_wxBitmap] in H.
  destruct (bitmaps m !! i) as [image |]; [| discriminate].
  cbn [mbind option_bind] in H. unfold new_wxBitmap in H.
  destruct (assign_member (with_image _) this _) as [m1 |] eqn:H1;
    [| discriminate].
  apply assign_member_inv in H1 as (b1 & Hb1 & ->).
  cbn [mbind option_bind bots bitmaps heap_nodes] in *.
  rewrite lookup_insert_ne in H by congruence. rewrite Hs in H.
  cbn [mbind option_bind] in H.
  destruct (_currentNode s) as [| c]; [discriminate |].
  cbn [deref_GraphNode heap_nodes] in H.
  destruct (heap_nodes m !! c) as [current |]; [| discriminate].
  cbn [mbind option_bind] in H. unfold new_GraphNode in H.
  cbn [bots bitmaps heap_nodes] in H.
  destruct (assign_member (with_currentNode _) this _) as [m2 |] eqn:H2;
    [| discriminate].
  apply assign_member_inv in H2 as (b2 & Hb2 & ->).
  cbn [mbind option_bind bots bitmaps heap_nodes] in *.
  rewrite !lookup_insert_ne in H by congruence. rewrite Hs in H.
  cbn [mbind option_bind] in H.
  destruct (_rootNode s) as [| r]; [discriminate |].
  repeat split; discriminate.
Qed.

(** X18. Both assignment operators overwrite the image handle of the
    target without deleting the bitmap it points to: after an assignment
    between two different live chatbots the bitmap the target held is
    still in the free store and no live chatbot holds its address, so no
    destructor deletes it. The move assignment always returns; the copy
    assignment is considered where it returns. *)
Theorem assignment_leaks_previous_image (GraphNode_of_id : nat -> GraphNode)
    (live : gset nat) (m : Memory) (this source : nat) (b : ChatBot) (i : nat) :
  reachable GraphNode_of_id live m ->
  this ∈ live -> source ∈ live -> this <> source ->
  bots m !! this = Some b -> _image b = Addr i ->
  (exists m', move_assignment_in this source m = Some m' /\
              leaked_bitmap live m' i) /\
  (forall m', ChatBot_copy_assignment GraphNode_of_id this source m = Some m' ->
              leaked_bitmap live m' i).
Proof.
  intros Hreach Hthis Hsource Hne Hb Hi.
  assert (Hinv : image_ownership live m).
  { apply (reachable_invariant GraphNode_of_id image_ownership);
      [| | exact Hreach].
    - intros m0. split; intros a; set_solver.
    - intros live0 m0 op m0' IH Hallowed Hrun.
      eapply image_ownership_step; eauto. }
  destruct Hinv as [Hstorage Hown].
  destruct (Hown this b i Hthis Hb Hi) as [Halloc Hothers].
  destruct (Hstorage source Hsource) as [s Hs].
  split.
  - unfold move_assignment_in, ChatBot_move_assignment.
    destruct (decide (this = source)); [contradiction |].
    rewrite (move_handles_spec this source (bots m) s b Hne Hs Hb).
    eexists. split; [reflexivity |].
    split; cbn [bots bitmaps]; [exact Halloc |].
    intros a x Ha Hx.
    destruct (decide (a = source)) as [-> | Hne1].
    { rewrite lookup_insert_eq in Hx. injection Hx as <-. discriminate. }
    rewrite lookup_insert_ne in Hx by congruence.
    destruct (decide (a = this)) as [-> | Hne2].
    { rewrite lookup_insert_eq in Hx. injection Hx as <-.
      apply (Hothers source s); auto. }
    rewrite lookup_insert_ne in Hx by congruence.
    now apply (Hothers a x).
  - intros m' Hcopy. unfold ChatBot_copy_assignment in Hcopy.
    destruct (decide (this = source)); [contradiction |].
    apply copy_handles_effect in Hcopy
      as (b' & image & Hbots & Himage & Hbm & _).
    assert (Hfresh : i <> fresh (dom (bitmaps m)))
      by now apply lookup_fresh_ne.
    split.
    + rewrite Hbm. now rewrite lookup_insert_ne by congruence.
    + intros a x Ha Hx. rewrite Hbots in Hx.
      destruct (decide (a = this)) as [-> | Hne2].
      * rewrite lookup_insert_eq in Hx. injection Hx as <-.
        rewrite Himage. congruence.
      * rewrite lookup_insert_ne in Hx by congruence.
        now apply (Hothers a x).
Qed.

Lemma assignment_leaks_previous_image_witness :
  (exists m', move_assignment_in 1 0 demo_memory_pair = Some m' /\
              leaked_bitmap demo_live_pair m' 1) /\
  (exists m', ChatBot_copy_assignment bare_GraphNode 1 0 demo_memory_pair
              = Some m' /\
              leaked_bitmap demo_live_pair m' 1).
Proof.
  destruct (assignment_leaks_previous_image bare_GraphNode demo_live_pair
              demo_memory_pair 1 0
              {| _image := Addr 1; _currentNode := Addr 1;
                 _rootNode := nullptr; _chatLogic := nullptr |} 1)
    as [Hmove Hcopy].
  - exact demo_memory_pair_reachable.
  - unfold demo_live_pair, demo_live. cbn. set_solver.
  - unfold demo_live_pair, demo_live. cbn. set_solver.
  - lia.
  - reflexivity.
  - reflexivity.
  - split; [exact Hmove |].
    eexists. split; [vm_compute; reflexivity |].
    apply Hcopy. vm_compute. reflexivity.
Defined.

(** X19. Copying from a chatbot one of whose image, current-node and
    root-node handles is null has no defined result, with the copy
    constructor as with the copy assignment operator: the handle is
    dereferenced without a test. A chatbot that was moved from has three
    such handles, one that was built by either constructor has at least
    one until the graph is attached. *)
Theorem copy_of_null_handle_undefined (GraphNode_of_id : nat -> GraphNode)
    (this source : nat) (m : Memory) (s : ChatBot) :
  this <> source ->
  bots m !! source = Some s ->
  _image s = nullptr \/ _currentNode s = nullptr \/ _rootNode s = nullptr ->
  ChatBot_copy_constructor GraphNode_of_id this source m = None /\
  ChatBot_copy_assignment GraphNode_of_id this source m = None.
Proof.
  intros Hne Hs Hnull.
  assert (Hcopy : copy_handles GraphNode_of_id this source m = None).
  { destruct (copy_handles GraphNode_of_id this source m) as [m' |] eqn:Hcopy;
      [| reflexivity].
    destruct (copy_handles_source_not_null _ _ _ _ _ _ Hne Hs Hcopy)
      as (Hi & Hc & Hr).
    destruct Hnull as [H | [H | H]]; contradiction. }
  unfold ChatBot_copy_constructor, ChatBot_copy_assignment.
  destruct (decide (this = source)); [contradiction | auto].
Qed.

Lemma copy_of_null_handle_undefined_witness :
  ChatBot_copy_constructor bare_GraphNode 0 1 demo_memory_pair = None /\
  ChatBot_copy_assignment bare_GraphNode 0 1 demo_memory_pair = None.
Proof.
  apply (copy_of_null_handle_undefined bare_GraphNode 0 1 demo_memory_pair
           {| _image := Addr 1; _currentNode := Addr 1;
              _rootNode := nullptr; _chatLogic := nullptr |}).
  - lia.
  - reflexivity.
  - right. right. reflexivity.
Defined.
